(** * dot.gov.reader: the analysis engine and the retry helper, in Rocq

    A shallow embedding of
    - [lib/analysis/word-count]  (countWords, getNodeContent, processNode,
      analyzeWordCount, getWordCountSummary),
    - [lib/analysis/agency-stats] (processAgency, analyzeAgencyStats,
      getAgencyBySlug),
    - [scripts/utils/retry.ts]   (retryWithBackoff, isRetryableError),
    followed by the properties of these functions.

    Conventions.  A JavaScript string is the list of its UTF-16 code units.
    Counts (lengths, word counts, sizes) are [nat]; the numbers the code
    subtracts or compares with a sign are [Z].  A division produces a
    [number], which keeps the outcomes [Infinity] and [NaN] of a division
    by zero apart from the finite ones; a finite quotient is kept as an
    exact rational.  A [Map] or [Set] is the list of its entries in insertion
    order, which is the order JavaScript iterates them in. *)

From Stdlib Require Import String Ascii DecimalString.
From Stdlib Require Import List Bool Arith ZArith NArith QArith Lia.
From Stdlib Require Import Permutation Sorted.
From Stdlib Require DecimalPos.
Import ListNotations.

Set Implicit Arguments.
Local Open Scope nat_scope.

(* ================================================================== *)
(** * JavaScript values: strings, numbers, arrays, maps *)

Module Js.

(** A string value: UTF-16 code units. *)
Definition jsstring := list N.

(** A literal of the source, written in ASCII. *)
Fixpoint lit (s : string) : jsstring :=
  match s with
  | EmptyString => []
  | String c s' => N_of_ascii c :: lit s'
  end.

Definition str_eqb (a b : jsstring) : bool :=
  if list_eq_dec N.eq_dec a b then true else false.

(** [WhiteSpace] and [LineTerminator] of ECMAScript: the characters that
    [String.prototype.trim] strips, and the class [\s] of a regular
    expression (the two sets are the same). *)
Definition is_ws (c : N) : bool :=
  ((9 <=? c) && (c <=? 13)            (* TAB LF VT FF CR *)
   || (c =? 32)                       (* SP *)
   || (c =? 160)                      (* NBSP *)
   || (c =? 5760)                     (* U+1680 *)
   || ((8192 <=? c) && (c <=? 8202))  (* U+2000 .. U+200A *)
   || (c =? 8232) || (c =? 8233)      (* LS PS *)
   || (c =? 8239) || (c =? 8287)      (* U+202F U+205F *)
   || (c =? 12288)                    (* U+3000 *)
   || (c =? 65279))%N.                (* U+FEFF *)

(** Leading white space removed. *)
Fixpoint trimStart (s : jsstring) : jsstring :=
  match s with
  | [] => []
  | c :: s' => if is_ws c then trimStart s' else s
  end.

Definition trimEnd (s : jsstring) : jsstring := rev (trimStart (rev s)).

(** [s.trim()] *)
Definition trim (s : jsstring) : jsstring := trimEnd (trimStart s).

(** [s.split(/\s+/)].  The scan of [String.prototype.split]: [tok] is the
    part of the current piece read so far (reversed), [in_ws] says that the
    previous character belonged to a separator match, which the greedy
    [\s+] extends over every following white-space character.  A separator
    closes the current piece, also when that piece is empty (leading white
    space); the end of the string closes the last piece, also when it is
    empty (trailing white space, or the empty string). *)
Fixpoint split_scan (tok : jsstring) (in_ws : bool) (s : jsstring)
  : list jsstring :=
  match s with
  | [] => [rev tok]
  | c :: s' =>
      if is_ws c
      then if in_ws then split_scan tok true s'
           else rev tok :: split_scan [] true s'
      else split_scan (c :: tok) false s'
  end.

Definition split_ws (s : jsstring) : list jsstring := split_scan [] false s.

(** Truthiness of a string: the empty string is falsy. *)
Definition truthy (s : jsstring) : bool :=
  match s with [] => false | _ => true end.

(** [x && ...] on an optional string field: [undefined] and [""] are falsy. *)
Definition truthy_opt (o : option jsstring) : bool :=
  match o with Some s => truthy s | None => false end.

(** [s.includes(needle)] *)
Fixpoint starts_with (needle s : jsstring) : bool :=
  match needle, s with
  | [], _ => true
  | _ :: _, [] => false
  | a :: needle', b :: s' => (a =? b)%N && starts_with needle' s'
  end.

Fixpoint includes (s needle : jsstring) : bool :=
  starts_with needle s ||
  match s with
  | [] => false
  | _ :: s' => includes s' needle
  end.

(** [String(n)] for an integer [n] (below 1e21 in magnitude): its decimal
    notation. *)
Definition string_of_Z (n : Z) : jsstring :=
  lit (NilZero.string_of_int (Z.to_int n)).

(** [a.localeCompare(b)], restricted to what the code uses it for: the tag
    names of the hierarchy levels, which are words of lower-case ASCII
    letters.  On such words collation is the dictionary order, a proper
    prefix first, that is the order of the code units. *)
Fixpoint localeCompare (a b : jsstring) : Z :=
  match a, b with
  | [], [] => 0%Z
  | [], _ :: _ => (-1)%Z
  | _ :: _, [] => 1%Z
  | x :: a', y :: b' =>
      match N.compare x y with
      | Lt => (-1)%Z
      | Gt => 1%Z
      | Eq => localeCompare a' b'
      end
  end.

(** ** Numbers produced by a division *)

(** The quotient of two counts: a rational, or what IEEE arithmetic gives
    for a zero divisor. *)
Inductive number : Type :=
| Finite (q : Q)
| PosInfinity
| NaN.

(** [a / b] on two counts. *)
Definition div (a b : nat) : number :=
  match b with
  | O => match a with O => NaN | S _ => PosInfinity end
  | S _ => Finite (Z.of_nat a # Pos.of_nat b)
  end.

Definition is_finite (x : number) : bool :=
  match x with Finite _ => true | _ => false end.

(** ** Arrays *)

(** [arr.sort(cmp)].  The sort of ECMAScript is stable, and with a
    consistent comparator its result does not depend on the engine's
    algorithm; it is computed here by insertion from the right: an element
    goes in front of the first element it does not compare greater than, so
    in front of the equal ones that followed it in the array. *)
Section Sort.
Variable A : Type.
Variable cmp : A -> A -> Z.

Fixpoint sort_insert (x : A) (l : list A) : list A :=
  match l with
  | [] => [x]
  | y :: l' => if (cmp x y <=? 0)%Z then x :: l else y :: sort_insert x l'
  end.

Definition sort (l : list A) : list A := fold_right sort_insert [] l.
End Sort.

(** [a] may stand in front of [b]: the comparator does not rank it after. *)
Definition precedes (A : Type) (cmp : A -> A -> Z) (a b : A) : Prop :=
  (cmp a b <= 0)%Z.

(** [arr.slice(0, n)] *)
Definition slice0 (A : Type) (n : nat) (l : list A) : list A := firstn n l.

(** [arr.reduce((sum, x) => sum + f(x), 0)] *)
Definition sum_by (A : Type) (f : A -> nat) (l : list A) : nat :=
  fold_left (fun sum x => sum + f x) l 0.

(** ** Map and Set, in insertion order *)

Section Collections.
Variables K V : Type.
Variable eqb : K -> K -> bool.

Definition Map := list (K * V).

Fixpoint map_get (k : K) (m : Map) : option V :=
  match m with
  | [] => None
  | (k', v) :: m' => if eqb k k' then Some v else map_get k m'
  end.

(** [m.set(k, v)]: a present key keeps its place and takes the new value,
    a new key goes last. *)
Fixpoint map_set (k : K) (v : V) (m : Map) : Map :=
  match m with
  | [] => [(k, v)]
  | (k', v') :: m' =>
      if eqb k k' then (k', v) :: m' else (k', v') :: map_set k v m'
  end.

Definition map_values (m : Map) : list V := List.map snd m.
Definition map_keys (m : Map) : list K := List.map fst m.

Definition JsSet := list K.

Fixpoint set_has (k : K) (s : JsSet) : bool :=
  match s with
  | [] => false
  | k' :: s' => eqb k k' || set_has k s'
  end.

(** [s.add(k)] *)
Definition set_add (k : K) (s : JsSet) : JsSet :=
  if set_has k s then s else s ++ [k].
End Collections.

(** ** What a call does: it returns or it throws *)

Inductive outcome (E A : Type) : Type :=
| Returned (a : A)
| Thrown (e : E).
Arguments Returned {E A} a.
Arguments Thrown {E A} e.

End Js.

Import Js.

(* ================================================================== *)
(** * lib/analysis/word-count *)

Module WordCount.

(** ** lib/ecfr/types: the document tree *)

(** [StructureNodeType]: the tag of a hierarchy level. *)
Inductive StructureNodeType : Type :=
| ty_title | ty_subtitle | ty_chapter | ty_subchapter | ty_part
| ty_subpart | ty_subject | ty_section | ty_appendix.

(** The string a tag is in the data. *)
Definition type_name (t : StructureNodeType) : jsstring :=
  match t with
  | ty_title => lit "title"
  | ty_subtitle => lit "subtitle"
  | ty_chapter => lit "chapter"
  | ty_subchapter => lit "subchapter"
  | ty_part => lit "part"
  | ty_subpart => lit "subpart"
  | ty_subject => lit "subject"
  | ty_section => lit "section"
  | ty_appendix => lit "appendix"
  end.

(** [StructureNode].  [content] and [text] are declared on sections and
    appendices; the index signature of the base interface lets any node
    carry them, and [getNodeContent] looks for them on every node. *)
#[warnings="-register-all"]
Inductive StructureNode : Type :=
  Node {
    identifier : jsstring;
    type : StructureNodeType;
    label : option jsstring;
    content : option jsstring;
    text : option jsstring;
    children : option (list StructureNode)
  }.

(** [TitleStructure]: the root, a node whose type is ['title'] and which
    carries the title number. *)
Record TitleStructure : Type := {
  title : Z;
  ts_identifier : jsstring;
  ts_label : option jsstring;
  ts_content : option jsstring;
  ts_text : option jsstring;
  ts_children : option (list StructureNode)
}.

(** A [TitleStructure] where a [StructureNode] is expected. *)
Definition as_node (s : TitleStructure) : StructureNode :=
  Node (ts_identifier s) ty_title (ts_label s) (ts_content s) (ts_text s)
       (ts_children s).

(** ** lib/analysis/types *)

Record ElementWordCount : Type := {
  el_identifier : jsstring;
  el_type : jsstring;
  el_label : option jsstring;
  wordCount : nat;
  characterCount : nat
}.

Record HierarchyWordCount : Type := {
  h_type : jsstring;
  h_count : nat;
  h_totalWords : nat;
  averageWords : number
}.

Record WordCountResult : Type := {
  r_title : Z;
  titleName : option jsstring;
  totalWords : nat;
  totalCharacters : nat;
  totalElements : nat;
  byHierarchy : list HierarchyWordCount;
  topElements : list ElementWordCount;
  sections : list ElementWordCount
}.

(** The value type of the [hierarchyCounts] map. *)
Record HierarchyCount : Type := {
  hc_count : nat;
  hc_totalWords : nat
}.

Definition HierarchyCounts := Map jsstring HierarchyCount.

(** ** countWords *)

(** [countWords(text)], [text] a string (the one call passes
    [getNodeContent]'s result). *)
Definition countWords (text : jsstring) : nat :=
  if negb (truthy text) then 0
  else length (filter truthy (split_ws (trim text))).

(** ** getNodeContent *)

Definition getNodeContent (node : StructureNode) : jsstring :=
  let content0 : jsstring := [] in
  let content1 :=
    if truthy_opt (content node)
    then content0 ++ match content node with Some c => c | None => [] end
    else content0 in
  let content2 :=
    if truthy_opt (text node)
    then content1 ++ lit " " ++ match text node with Some t => t | None => [] end
    else content1 in
  trim content2.

(** ** processNode *)

(** The two collections [processNode] appends to. *)
Record Walk : Type := {
  elements : list ElementWordCount;
  hierarchyCounts : HierarchyCounts
}.

(** The record [elementCount] that [processNode] builds for its node. *)
Definition element_of (node : StructureNode) : ElementWordCount :=
  let content := getNodeContent node in
  let wordCount := countWords content in
  let characterCount := length content in
  {| el_identifier := identifier node;
     el_type := type_name (type node);
     el_label := label node;
     wordCount := wordCount;
     characterCount := characterCount |}.

(** The update of [hierarchyCounts] for a node of type [hierarchyKey] with
    [wordCount] words of its own. *)
Definition bump (hierarchyCounts : HierarchyCounts) (hierarchyKey : jsstring)
    (wordCount : nat) : HierarchyCounts :=
  let existing :=
    match map_get str_eqb hierarchyKey hierarchyCounts with
    | Some e => e
    | None => {| hc_count := 0; hc_totalWords := 0 |}
    end in
  map_set str_eqb hierarchyKey
    {| hc_count := hc_count existing + 1;
       hc_totalWords := hc_totalWords existing + wordCount |}
    hierarchyCounts.

(** The part of [processNode] before the recursion: the node's record is
    pushed and its type's entry updated. *)
Definition visit (node : StructureNode) (w : Walk) : nat * Walk :=
  let elementCount := element_of node in
  let wordCount := wordCount elementCount in
  let elements' := elements w ++ [elementCount] in
  let hierarchyKey := type_name (type node) in
  let counts' := bump (hierarchyCounts w) hierarchyKey wordCount in
  (wordCount, {| elements := elements'; hierarchyCounts := counts' |}).

(** [processNode(node, elements, hierarchyCounts)]: the number returned and
    the two collections after the call. *)
Fixpoint processNode (node : StructureNode) (w : Walk) : nat * Walk :=
  let '(wordCount, w1) := visit node w in
  let fix each (cs : list StructureNode) (childWordsTotal : nat) (w : Walk)
    : nat * Walk :=
    match cs with
    | [] => (childWordsTotal, w)
    | child :: cs' =>
        let '(n, w') := processNode child w in
        each cs' (childWordsTotal + n) w'
    end in
  let '(childWordsTotal, w2) :=
    match node with
    | Node _ _ _ _ _ (Some cs) => each cs 0 w1
    | Node _ _ _ _ _ None => (0, w1)
    end in
  (wordCount + childWordsTotal, w2).

(** ** analyzeWordCount *)

Definition to_hierarchy (e : jsstring * HierarchyCount) : HierarchyWordCount :=
  let '(type, data) := e in
  {| h_type := type;
     h_count := hc_count data;
     h_totalWords := hc_totalWords data;
     averageWords :=
       if 0 <? hc_count data
       then div (hc_totalWords data) (hc_count data)
       else Finite 0 |}.

Definition analyzeWordCount (structure : TitleStructure) : WordCountResult :=
  let '(totalWords, w) :=
    processNode (as_node structure)
                {| elements := []; hierarchyCounts := [] |} in
  let elements := elements w in
  let totalCharacters := sum_by characterCount elements in
  let byHierarchy := List.map to_hierarchy (hierarchyCounts w) in
  let byHierarchy :=
    sort (fun a b => localeCompare (h_type a) (h_type b)) byHierarchy in
  let topElements :=
    slice0 10
      (sort (fun a b => (Z.of_nat (wordCount b) - Z.of_nat (wordCount a))%Z)
            elements) in
  let sections :=
    filter (fun el => str_eqb (el_type el) (lit "section")) elements in
  {| r_title := title structure;
     titleName := ts_label structure;
     totalWords := totalWords;
     totalCharacters := totalCharacters;
     totalElements := length elements;
     byHierarchy := byHierarchy;
     topElements := topElements;
     sections := sections |}.

(** ** getWordCountSummary *)

Record Summary : Type := {
  titleCount : nat;
  s_totalWords : nat;
  s_totalElements : nat;
  averageWordsPerTitle : number;
  longestTitle : option WordCountResult;
  shortestTitle : option WordCountResult
}.

(** The one error the body can run into: reading [.totalWords] of
    [undefined]. *)
Inductive JsError : Type := TypeError.

(** [results.reduce((acc, r) => better(r.totalWords, acc.totalWords) ? r : acc, init)]
    with [init] possibly [undefined]. *)
Fixpoint reduce_pick (better : nat -> nat -> bool)
    (results : list WordCountResult) (acc : option WordCountResult)
  : outcome JsError (option WordCountResult) :=
  match results with
  | [] => Returned acc
  | r :: rest =>
      match acc with
      | None => Thrown TypeError
      | Some m =>
          reduce_pick better rest
            (Some (if better (totalWords r) (totalWords m) then r else m))
      end
  end.

Definition getWordCountSummary (results : list WordCountResult)
  : outcome JsError Summary :=
  let totalWords := sum_by totalWords results in
  let totalElements := sum_by totalElements results in
  let averageWordsPerTitle :=
    if 0 <? length results then div totalWords (length results)
    else Finite 0 in
  match reduce_pick (fun a b => b <? a) results (nth_error results 0) with
  | Thrown e => Thrown e
  | Returned longest =>
      match reduce_pick (fun a b => a <? b) results (nth_error results 0) with
      | Thrown e => Thrown e
      | Returned shortest =>
          Returned
            {| titleCount := length results;
               s_totalWords := totalWords;
               s_totalElements := totalElements;
               averageWordsPerTitle := averageWordsPerTitle;
               longestTitle := longest;
               shortestTitle := shortest |}
      end
  end.

(** ** The vocabulary of the properties *)

(** The nodes of a tree in the order the walk meets them. *)
Fixpoint preorder (node : StructureNode) : list StructureNode :=
  node ::
  match node with
  | Node _ _ _ _ _ (Some cs) => flat_map preorder cs
  | Node _ _ _ _ _ None => []
  end.

(** The Element Word-Count records produced for a tree: what
    [processNode] leaves in [elements]. *)
Definition records (structure : TitleStructure) : list ElementWordCount :=
  elements (snd (processNode (as_node structure)
                             {| elements := []; hierarchyCounts := [] |})).

(** The number of maximal runs of non-white-space characters of a string:
    the positions where such a run begins. *)
Fixpoint runs_from (prev_ws : bool) (s : jsstring) : nat :=
  match s with
  | [] => 0
  | c :: s' =>
      if is_ws c then runs_from true s'
      else (if prev_ws then 1 else 0) + runs_from false s'
  end.

Definition word_runs (s : jsstring) : nat := runs_from true s.

(** The dictionary order of strings by code units: a proper prefix comes
    first, otherwise the first differing unit decides. *)
Inductive lex_le : jsstring -> jsstring -> Prop :=
| lex_nil (b : jsstring) : lex_le [] b
| lex_head (x y : N) (a b : jsstring) : (x < y)%N -> lex_le (x :: a) (y :: b)
| lex_tail (x : N) (a b : jsstring) : lex_le a b -> lex_le (x :: a) (x :: b).

(** The nodes below a node. *)
Definition descendants (node : StructureNode) : list StructureNode :=
  tl (preorder node).

(** A node's own word count. *)
Definition own_words (node : StructureNode) : nat :=
  wordCount (element_of node).

(** The update of the table for one node. *)
Definition tally (m : HierarchyCounts) (n : StructureNode) : HierarchyCounts :=
  bump m (type_name (type n)) (own_words n).

(** The nodes of a tree that carry a given tag name. *)
Definition nodes_of_type (ty : jsstring) (nodes : list StructureNode)
  : list StructureNode :=
  filter (fun n => str_eqb (type_name (type n)) ty) nodes.

(** The concatenation the specification describes: the content, if the
    node has one, then a space and the text, if it has one. *)
Definition joined_fields (node : StructureNode) : jsstring :=
  match content node with Some c => c | None => [] end ++
  match text node with Some t => lit " " ++ t | None => [] end.

(** The tree of the test 'should count words in section content'. *)
Definition sample_structure : TitleStructure :=
  {| title := 17;
     ts_identifier := lit "test-title-17";
     ts_label := Some (lit "Title 17 - Test Title");
     ts_content := None;
     ts_text := None;
     ts_children :=
       Some [Node (lit "test-chapter") ty_chapter (Some (lit "Test Chapter"))
               None None
               (Some [Node (lit "test-part") ty_part (Some (lit "Test Part"))
                        None None
                        (Some [Node (lit "test-section-1") ty_section None
                                 (Some (lit "This is a test section with exactly ten words here."))
                                 None None])])] |}.

(** ** analyzeMultipleTitles *)

Definition analyzeMultipleTitles (structures : list TitleStructure)
  : list WordCountResult :=
  List.map (fun structure => analyzeWordCount structure) structures.

(** ** lib/ecfr/types: the type guard of sections *)

(** [isSection(node)]: [node.type === 'section']. *)
Definition isSection (node : StructureNode) : bool :=
  str_eqb (type_name (type node)) (lit "section").

(** ** More vocabulary *)

(** All the nodes of a batch of trees. *)
Definition batch_nodes (structures : list TitleStructure)
  : list StructureNode :=
  flat_map (fun structure => preorder (as_node structure)) structures.

(** [r] is the first of [results] that no other result beats, [beats x y]
    saying that [x] is to be preferred to [y]: nothing in front of it is as
    good, nothing behind it is better. *)
Definition first_best (beats : WordCountResult -> WordCountResult -> Prop)
    (results : list WordCountResult) (r : WordCountResult) : Prop :=
  exists front back,
    results = front ++ r :: back /\
    Forall (fun x => beats r x) front /\
    Forall (fun x => ~ beats x r) back.

End WordCount.

(* ================================================================== *)
(** * lib/analysis/agency-stats *)

Module AgencyStats.

(** ** lib/ecfr/types *)

Record CfrReference : Type := {
  title : Z;
  chapter : option jsstring;
  part : option jsstring
}.

#[warnings="-register-all"]
Inductive Agency : Type :=
  mkAgency {
    name : jsstring;
    short_name : option jsstring;
    slug : jsstring;
    cfr_references : option (list CfrReference);
    children : option (list Agency)
  }.

Record Title : Type := {
  number : Z;
  t_name : jsstring;
  reserved : bool;
  amendment_date : option jsstring;
  issue_date : option jsstring;
  t_status : option jsstring
}.

(** ** lib/analysis/types *)

Record AgencyStat : Type := {
  s_name : jsstring;
  s_slug : jsstring;
  shortName : option jsstring;
  titleCount : nat;
  chapterCount : nat;
  partCount : nat;
  titles : list Z
}.

Record TitleDistribution : Type := {
  titleNumber : Z;
  d_titleName : jsstring;
  agencyCount : nat;
  agencies : list jsstring
}.

Record AgencyStatsResult : Type := {
  totalAgencies : nat;
  agenciesWithReferences : nat;
  totalTitles : nat;
  averageTitlesPerAgency : Js.number;
  topAgencies : list AgencyStat;
  titleDistribution : list TitleDistribution
}.

Definition Results := Map jsstring AgencyStat.

(** ** processAgency *)

(** The template [`${title}-${x}`]. *)
Definition ref_key (title : Z) (x : jsstring) : jsstring :=
  string_of_Z title ++ lit "-" ++ x.

(** The three sets after the loop over [cfr_references]. *)
Definition ref_sets (refs : list CfrReference)
  : JsSet Z * JsSet jsstring * JsSet jsstring :=
  fold_left
    (fun '(titles, chapters, parts) ref =>
       let titles := set_add Z.eqb (title ref) titles in
       let chapters :=
         match chapter ref with
         | Some c => if truthy c
                     then set_add str_eqb (ref_key (title ref) c) chapters
                     else chapters
         | None => chapters
         end in
       let parts :=
         match part ref with
         | Some p => if truthy p
                     then set_add str_eqb (ref_key (title ref) p) parts
                     else parts
         | None => parts
         end in
       (titles, chapters, parts))
    refs ([], [], []).

(** The record a node stores, if it stores one: [titles.size > 0]. *)
Definition own_stat (agency : Agency) : option AgencyStat :=
  let '(titles, chapters, parts) :=
    match cfr_references agency with
    | Some refs => ref_sets refs
    | None => ([], [], [])
    end in
  if 0 <? length titles
  then Some {| s_name := name agency;
               s_slug := slug agency;
               shortName := short_name agency;
               titleCount := length titles;
               chapterCount := length chapters;
               partCount := length parts;
               titles := sort (fun a b => (a - b)%Z) titles |}
  else None.

(** The part of [processAgency] before the recursion: the node's record,
    if it has one, is stored under its slug. *)
Definition store (results : Results) (agency : Agency) : Results :=
  match own_stat agency with
  | Some stat => map_set str_eqb (slug agency) stat results
  | None => results
  end.

(** [processAgency(agency, results)]: [results] after the call. *)
Fixpoint processAgency (agency : Agency) (results : Results) : Results :=
  let results1 := store results agency in
  let fix each (cs : list Agency) (results : Results) : Results :=
    match cs with
    | [] => results
    | child :: cs' => each cs' (processAgency child results)
    end in
  match agency with
  | mkAgency _ _ _ _ (Some cs) =>
      if 0 <? length cs then each cs results1 else results1
  | mkAgency _ _ _ _ None => results1
  end.

(** The loop [for (const agency of agencies) processAgency(agency, results)]
    on a fresh map, which opens [analyzeAgencyStats], [getAgencyBySlug] and
    [getAgenciesForTitle]. *)
Definition collect (agencies : list Agency) : Results :=
  fold_left (fun results agency => processAgency agency results) agencies [].

(** ** analyzeAgencyStats *)

Definition TitleAgencies := Map Z (JsSet jsstring).

Definition add_title_agency (slug : jsstring) (m : TitleAgencies) (titleNum : Z)
  : TitleAgencies :=
  let m1 :=
    match map_get Z.eqb titleNum m with
    | Some _ => m
    | None => map_set Z.eqb titleNum [] m
    end in
  match map_get Z.eqb titleNum m1 with
  | Some agencySlugs =>
      map_set Z.eqb titleNum (set_add str_eqb slug agencySlugs) m1
  | None => m1
  end.

Definition to_distribution (titles : option (list Title))
    (e : Z * JsSet jsstring) : TitleDistribution :=
  let '(titleNumber, agencySlugs) := e in
  let title :=
    match titles with
    | Some ts => find (fun t => Z.eqb (number t) titleNumber) ts
    | None => None
    end in
  let fallback := lit "Title " ++ string_of_Z titleNumber in
  {| titleNumber := titleNumber;
     d_titleName :=
       match title with
       | Some t => if truthy (t_name t) then t_name t else fallback
       | None => fallback
       end;
     agencyCount := length agencySlugs;
     agencies := agencySlugs |}.

Definition analyzeAgencyStats (agencies : list Agency)
    (titles' : option (list Title)) : AgencyStatsResult :=
  let agencyStats := collect agencies in
  let allStats := map_values agencyStats in
  let totalAgencies := length agencies in
  let agenciesWithReferences := length allStats in
  let totalTitles :=
    match titles' with Some ts => length ts | None => 50 end in
  let totalTitleReferences := sum_by titleCount allStats in
  let averageTitlesPerAgency :=
    if 0 <? agenciesWithReferences
    then div totalTitleReferences agenciesWithReferences
    else Finite 0 in
  let topAgencies :=
    slice0 10
      (sort (fun a b => (Z.of_nat (titleCount b) - Z.of_nat (titleCount a))%Z)
            allStats) in
  let titleAgenciesMap :=
    fold_left
      (fun m stat => fold_left (add_title_agency (s_slug stat)) (titles stat) m)
      allStats ([] : TitleAgencies) in
  let titleDistribution :=
    sort (fun a b => (Z.of_nat (agencyCount b) - Z.of_nat (agencyCount a))%Z)
         (List.map (to_distribution titles') titleAgenciesMap) in
  {| totalAgencies := totalAgencies;
     agenciesWithReferences := agenciesWithReferences;
     totalTitles := totalTitles;
     averageTitlesPerAgency := averageTitlesPerAgency;
     topAgencies := topAgencies;
     titleDistribution := titleDistribution |}.

(** ** getAgencyBySlug *)

Definition getAgencyBySlug (agencies : list Agency) (slug : jsstring)
  : option AgencyStat :=
  map_get str_eqb slug (collect agencies).

(** ** The vocabulary of the properties *)

(** The nodes of an agency tree, and of a forest, in the order of the walk. *)
Fixpoint visited (agency : Agency) : list Agency :=
  agency ::
  match agency with
  | mkAgency _ _ _ _ (Some cs) => flat_map visited cs
  | mkAgency _ _ _ _ None => []
  end.

Definition forest_nodes (agencies : list Agency) : list Agency :=
  flat_map visited agencies.

(** The visited nodes whose set of distinct titles is not empty. *)
Definition has_references (agency : Agency) : bool :=
  match own_stat agency with Some _ => true | None => false end.

Definition referencing_nodes (agencies : list Agency) : list Agency :=
  filter has_references (forest_nodes agencies).

(** Membership of a string in a list. *)
Definition among (l : list jsstring) (x : jsstring) : bool :=
  set_has str_eqb x l.

(** The distinct strings of a list, first occurrences kept. *)
Fixpoint distinct (l : list jsstring) : list jsstring :=
  match l with
  | [] => []
  | x :: l' => x :: filter (fun y => negb (str_eqb y x)) (distinct l')
  end.

(** Two root agencies that share a slug, and a parent with one child. *)
Definition agency_with (slug : string) (titles : list Z)
    (children : option (list Agency)) : Agency :=
  mkAgency (lit "Test Agency") None (lit slug)
    (Some (List.map (fun t => {| title := t; chapter := None; part := None |})
                    titles))
    children.

Definition same_slug_forest : list Agency :=
  [agency_with "a" [5; 6]%Z None; agency_with "a" [10]%Z None].

Definition parent_child_forest : list Agency :=
  [agency_with "a" [5]%Z (Some [agency_with "b" [10]%Z None])].

(** ** getAgenciesForTitle *)

(** [stat.titles.includes(titleNumber)] *)
Definition lists_title (titleNumber : Z) (stat : AgencyStat) : bool :=
  existsb (fun t => Z.eqb t titleNumber) (titles stat).

Definition getAgenciesForTitle (agencies : list Agency) (titleNumber : Z)
  : list AgencyStat :=
  filter (lists_title titleNumber) (map_values (collect agencies)).

(** ** More vocabulary *)

(** The references of a node, none when the field is absent. *)
Definition references (agency : Agency) : list CfrReference :=
  match cfr_references agency with
  | Some refs => refs
  | None => []
  end.

(** The records the nodes of a list produce, in the order of the list. *)
Definition stats_of (nodes : list Agency) : list AgencyStat :=
  flat_map (fun n => match own_stat n with
                     | Some stat => [stat]
                     | None => []
                     end) nodes.

(** [titleAgenciesMap] after the two loops of [analyzeAgencyStats] over
    the records [allStats]. *)
Definition title_agencies (allStats : list AgencyStat) : TitleAgencies :=
  fold_left
    (fun m stat => fold_left (add_title_agency (s_slug stat)) (titles stat) m)
    allStats [].

(** The set found under a key, or a new one. *)
Definition or_empty (o : option (JsSet jsstring)) : JsSet jsstring :=
  match o with Some x => x | None => [] end.

(** The slugs of the records that list a title, in the order of the
    records. *)
Definition slugs_listing (titleNumber : Z) (stats : list AgencyStat)
  : list jsstring :=
  List.map s_slug (filter (lists_title titleNumber) stats).

End AgencyStats.

(* ================================================================== *)
(** * scripts/utils/retry.ts *)

Module Retry.

(** An [Error] object: its message and, when it has one, its [status]. *)
Record Error : Type := {
  message : jsstring;
  status : option Z
}.

(** A thrown value, of type [unknown]: an [Error], or anything else, of
    which the code only takes [String(value)]. *)
Inductive Value : Type :=
| an_Error (e : Error)
| not_an_Error (shown : jsstring).

(** lib/ecfr/constants *)
Record Config : Type := {
  maxAttempts : nat;
  initialDelay : Z;
  maxDelay : Z;
  factor : Z
}.

Definition RETRY_CONFIG : Config :=
  {| maxAttempts := 3; initialDelay := 1000; maxDelay := 10000; factor := 2 |}.

(** [RetryOptions]; [onRetry] says whether a callback was given, its calls
    are recorded among the events. *)
Record RetryOptions : Type := {
  o_maxAttempts : option nat;
  o_initialDelay : option Z;
  o_maxDelay : option Z;
  o_factor : option Z;
  onRetry : bool
}.

Definition no_options : RetryOptions :=
  {| o_maxAttempts := None; o_initialDelay := None; o_maxDelay := None;
     o_factor := None; onRetry := false |}.

(** What the function does besides returning. *)
Inductive Event : Type :=
| ev_call (attempt : nat)
| ev_onRetry (attempt : nat) (error : Error)
| ev_sleep (ms : Z).

(** [error instanceof Error ? error : new Error(String(error))] *)
Definition to_Error (x : Value) : Error :=
  match x with
  | an_Error e => e
  | not_an_Error shown => {| message := shown; status := None |}
  end.

Definition unknown_error : Error :=
  {| message := lit "Retry failed with unknown error"; status := None |}.

(** The destructuring of [options], with the defaults of [RETRY_CONFIG]. *)
Definition maxAttempts_of (options : RetryOptions) : nat :=
  match o_maxAttempts options with
  | Some n => n | None => maxAttempts RETRY_CONFIG end.
Definition initialDelay_of (options : RetryOptions) : Z :=
  match o_initialDelay options with
  | Some n => n | None => initialDelay RETRY_CONFIG end.
Definition maxDelay_of (options : RetryOptions) : Z :=
  match o_maxDelay options with
  | Some n => n | None => maxDelay RETRY_CONFIG end.
Definition factor_of (options : RetryOptions) : Z :=
  match o_factor options with
  | Some n => n | None => factor RETRY_CONFIG end.

Section RetryWithBackoff.
Variable T : Type.
(** [fn]: what its call number [attempt] does. *)
Variable fn : nat -> outcome Value T.
Variable options : RetryOptions.

(** The loop, from [attempt] on; [remaining] is the number of values
    [attempt] still takes, [maxAttempts + 1 - attempt]. *)
Fixpoint attempts (remaining attempt : nat) (delay : Z)
    (lastError : option Error) : outcome Error T * list Event :=
  match remaining with
  | O =>
      (Thrown (match lastError with
               | Some e => e
               | None => unknown_error
               end), [])
  | S remaining' =>
      match fn attempt with
      | Returned v => (Returned v, [ev_call attempt])
      | Thrown x =>
          let lastError := to_Error x in
          if attempt =? maxAttempts_of options
          then (Thrown lastError, [ev_call attempt])
          else
            let '(r, evs) :=
              attempts remaining' (attempt + 1)
                       (delay * factor_of options)%Z (Some lastError) in
            (r, ev_call attempt
                :: (if onRetry options then [ev_onRetry attempt lastError]
                    else [])
                ++ ev_sleep (Z.min delay (maxDelay_of options)) :: evs)
      end
  end.

Definition retryWithBackoff : outcome Error T * list Event :=
  attempts (maxAttempts_of options) 1 (initialDelay_of options) None.
End RetryWithBackoff.

(** ** isRetryableError *)

Definition isRetryableError (error : Value) : bool :=
  match error with
  | not_an_Error _ => false
  | an_Error e =>
      if includes (message e) (lit "fetch failed")
         || includes (message e) (lit "ECONNREFUSED")
         || includes (message e) (lit "ETIMEDOUT")
         || includes (message e) (lit "ENOTFOUND")
      then true
      else
        match status e with
        | Some status =>
            (status =? 429)%Z || ((500 <=? status)%Z && (status <? 600)%Z)
        | None => false
        end
  end.

(** ** The vocabulary of the properties *)

(** The attempts made: the calls of [fn] among the events. *)
Definition calls (evs : list Event) : list nat :=
  flat_map (fun e => match e with ev_call k => [k] | _ => [] end) evs.

(** [fn] fails at every call before call [n]. *)
Definition fails_before (T : Type) (fn : nat -> outcome Value T) (n : nat)
  : Prop :=
  forall k, 1 <= k < n -> exists x, fn k = Thrown x.

(** What the caller gets from an attempt that ends the loop. *)
Definition settled (T : Type) (o : outcome Value T) : outcome Error T :=
  match o with
  | Returned v => Returned v
  | Thrown x => Thrown (to_Error x)
  end.

(** The error of the test 'should return false for non-retryable errors',
    and a function that fails with it once and then succeeds. *)
Definition other_error : Value :=
  an_Error {| message := lit "Some other error"; status := None |}.

Definition fails_once (attempt : nat) : outcome Value jsstring :=
  if attempt <? 2 then Thrown other_error else Returned (lit "success").

(** ** More vocabulary *)

(** The waits made: the arguments of [sleep] among the events. *)
Definition sleeps (evs : list Event) : list Z :=
  flat_map (fun e => match e with ev_sleep ms => [ms] | _ => [] end) evs.

(** The calls of [onRetry] among the events. *)
Definition notices (evs : list Event) : list (nat * Error) :=
  flat_map (fun e => match e with ev_onRetry k err => [(k, err)] | _ => [] end)
           evs.

(** The wait after failure number [i + 1]: the initial delay multiplied
    [i] times by the factor, capped. *)
Definition wait (options : RetryOptions) (i : nat) : Z :=
  Z.min (initialDelay_of options * factor_of options ^ Z.of_nat i)
        (maxDelay_of options).

(** What [onRetry] is told of call [i]. *)
Definition notice (T : Type) (fn : nat -> outcome Value T) (i : nat)
  : list (nat * Error) :=
  match fn i with
  | Thrown x => [(i, to_Error x)]
  | Returned _ => []
  end.

(** [needle] occurs in [s]. *)
Definition occurs_in (needle s : jsstring) : Prop :=
  exists front back, s = front ++ needle ++ back.

(** The four marks of a network failure. *)
Definition network_marks : list jsstring :=
  [lit "fetch failed"; lit "ECONNREFUSED"; lit "ETIMEDOUT"; lit "ENOTFOUND"].

End Retry.

(* ================================================================== *)
(** * lib/fixtures/loader.ts *)

Module Loader.
Import Retry.

(** [TitleMetadata] of lib/ecfr/types; [files] is flattened. *)
Record TitleMetadata : Type := {
  m_title : Z;
  downloadDate : jsstring;
  dataDate : jsstring;
  files_structure : option jsstring;
  files_full : option jsstring;
  files_versions : option jsstring
}.

(** [new Error(message)] *)
Definition new_Error (message : jsstring) : Error :=
  {| message := message; status := None |}.

(** [error instanceof Error ? error.message : String(error)] *)
Definition message_of (error : Value) : jsstring := message (to_Error error).

(** The directory [`title-${titleNumber}`]. *)
Definition title_dir (titleNumber : Z) : jsstring :=
  lit "title-" ++ string_of_Z titleNumber.

(** The file system and [JSON.parse] are the environment of the loaders.
    A path is the list of the segments joined to [FIXTURES_DIR];
    [readFile] says what reading it gives.  [parse_metadata] and
    [parse_structure] are [JSON.parse] followed by the reading of the
    result at its declared type; what they throw includes the [TypeError]
    of reading a field of a value that has none. *)
Section FileSystem.
Variable readFile : list jsstring -> outcome Value jsstring.
Variable parse_metadata : jsstring -> outcome Value TitleMetadata.
Variable parse_structure : jsstring -> outcome Value WordCount.TitleStructure.

(** The [try] block of [loadTitleStructure]. *)
Definition read_structure (titleNumber : Z)
  : outcome Value WordCount.TitleStructure :=
  match readFile [lit "titles"; title_dir titleNumber; lit "metadata.json"] with
  | Thrown x => Thrown x
  | Returned metadataContent =>
      match parse_metadata metadataContent with
      | Thrown x => Thrown x
      | Returned metadata =>
          if negb (truthy_opt (files_structure metadata))
          then Thrown (an_Error
                         (new_Error (lit "No structure file found for title "
                                     ++ string_of_Z titleNumber)))
          else
            match readFile [lit "titles"; title_dir titleNumber;
                            match files_structure metadata with
                            | Some file => file
                            | None => []
                            end] with
            | Thrown x => Thrown x
            | Returned content => parse_structure content
            end
      end
  end.

Definition loadTitleStructure (titleNumber : Z)
  : outcome Error WordCount.TitleStructure :=
  match read_structure titleNumber with
  | Returned structure => Returned structure
  | Thrown error =>
      Thrown (new_Error (lit "Failed to load title "
                         ++ string_of_Z titleNumber
                         ++ lit " structure: " ++ message_of error))
  end.


End FileSystem.

End Loader.

(* ================================================================== *)
(** * app/api: the routes of the word count and of a title *)

Module Routes.
Import Retry Loader.

(** ** parseInt(string, 10) *)

(** The longest prefix of decimal digits. *)
Fixpoint digits (s : jsstring) : Decimal.uint :=
  match s with
  | [] => Decimal.Nil
  | c :: s' =>
      if (c =? 48)%N then Decimal.D0 (digits s')
      else if (c =? 49)%N then Decimal.D1 (digits s')
      else if (c =? 50)%N then Decimal.D2 (digits s')
      else if (c =? 51)%N then Decimal.D3 (digits s')
      else if (c =? 52)%N then Decimal.D4 (digits s')
      else if (c =? 53)%N then Decimal.D5 (digits s')
      else if (c =? 54)%N then Decimal.D6 (digits s')
      else if (c =? 55)%N then Decimal.D7 (digits s')
      else if (c =? 56)%N then Decimal.D8 (digits s')
      else if (c =? 57)%N then Decimal.D9 (digits s')
      else Decimal.Nil
  end.

(** [parseInt(s, 10)]; [None] is [NaN].  Leading white space is skipped,
    one sign is read, then the digits up to the first other character.
    (The number is kept exact where a long run of digits is rounded to a
    double; no comparison with 1 or 50 tells the two apart.) *)
Definition parseInt10 (s : jsstring) : option Z :=
  let str := trimStart s in
  let '(sign, str) :=
    match str with
    | c :: rest =>
        if (c =? 45)%N then ((-1)%Z, rest)
        else if (c =? 43)%N then (1%Z, rest)
        else (1%Z, str)
    | [] => (1%Z, str)
    end in
  match digits str with
  | Decimal.Nil => None
  | ds => Some (sign * Z.of_uint ds)%Z
  end.

(** [isNaN(titleNumber) || titleNumber < 1 || titleNumber > 50] *)
Definition out_of_range (titleNumber : option Z) : bool :=
  match titleNumber with
  | None => true
  | Some n => (n <? 1)%Z || (50 <? n)%Z
  end.

(** ** Responses *)

Inductive Body : Type :=
| error_body (error message : jsstring)
| analysis_body (analysis : WordCount.WordCountResult)
| structure_body (structure : WordCount.TitleStructure).

(** [NextResponse.json(body, { status, headers })]; [cached] says that the
    [Cache-Control] header is set. *)
Record Response : Type := {
  r_status : nat;
  r_body : Body;
  cached : bool
}.

Definition invalid_title : Response :=
  {| r_status := 400;
     r_body := error_body (lit "Invalid title number")
                          (lit "Title number must be between 1 and 50");
     cached := false |}.

(** [analysis.titleName = titleInfo.name] *)
Definition with_titleName (analysis : WordCount.WordCountResult)
    (name : jsstring) : WordCount.WordCountResult :=
  {| WordCount.r_title := WordCount.r_title analysis;
     WordCount.titleName := Some name;
     WordCount.totalWords := WordCount.totalWords analysis;
     WordCount.totalCharacters := WordCount.totalCharacters analysis;
     WordCount.totalElements := WordCount.totalElements analysis;
     WordCount.byHierarchy := WordCount.byHierarchy analysis;
     WordCount.topElements := WordCount.topElements analysis;
     WordCount.sections := WordCount.sections analysis |}.

Section Handlers.
Variable readFile : list jsstring -> outcome Value jsstring.
Variable parse_metadata : jsstring -> outcome Value TitleMetadata.
Variable parse_structure : jsstring -> outcome Value WordCount.TitleStructure.
(** What [await loadTitlesSummary()] gives. *)
Variable loadTitlesSummary : outcome Error (list AgencyStats.Title).

(** [GET /api/analysis/word-count]; [titleParam] is
    [searchParams.get('title')], [None] for [null]. *)
Definition GET_word_count (titleParam : option jsstring) : Response :=
  if negb (truthy_opt titleParam)
  then {| r_status := 400;
          r_body := error_body
                      (lit "Missing title parameter")
                      (lit "Please provide a title number: /api/analysis/word-count?title=17");
          cached := false |}
  else
    let titleNumber :=
      parseInt10 (match titleParam with Some p => p | None => [] end) in
    if out_of_range titleNumber then invalid_title
    else
      let titleNumber := match titleNumber with Some n => n | None => 0%Z end in
      match loadTitleStructure readFile parse_metadata parse_structure
                               titleNumber with
      | Returned structure =>
          let analysis := WordCount.analyzeWordCount structure in
          let analysis :=
            match loadTitlesSummary with
            | Returned titles =>
                match find (fun t => Z.eqb (AgencyStats.number t) titleNumber)
                           titles with
                | Some titleInfo =>
                    with_titleName analysis (AgencyStats.t_name titleInfo)
                | None => analysis
                end
            | Thrown _ => analysis
            end in
          {| r_status := 200; r_body := analysis_body analysis;
             cached := true |}
      | Thrown error =>
          if includes (message error) (lit "Failed to load title")
          then {| r_status := 404;
                  r_body := error_body (lit "Title data not available")
                                       (message error);
                  cached := false |}
          else {| r_status := 500;
                  r_body := error_body (lit "Failed to analyze word count")
                                       (message error);
                  cached := false |}
      end.

End Handlers.

(** ** Vocabulary *)

(** The request names a title: its parameter reads as a number from 1 to
    50. *)
Definition names_title (titleParam : jsstring) (n : Z) : Prop :=
  parseInt10 titleParam = Some n /\ (1 <= n <= 50)%Z.


(** Two environments: a directory with no file in it, and one where every
    file reads and parses, the metadata naming [file] as structure file. *)
Definition no_file (path : list jsstring) : outcome Value jsstring :=
  Thrown (an_Error (new_Error (lit "ENOENT: no such file or directory"))).

Definition any_file (path : list jsstring) : outcome Value jsstring :=
  Returned (lit "{}").

Definition metadata_naming (file : option jsstring) (content : jsstring)
  : outcome Value TitleMetadata :=
  Returned {| m_title := 17; downloadDate := lit "2025-12-30";
              dataDate := lit "2025-12-30"; files_structure := file;
              files_full := None; files_versions := None |}.

Definition sample_parse (content : jsstring)
  : outcome Value WordCount.TitleStructure :=
  Returned WordCount.sample_structure.

End Routes.

(* ================================================================== *)
(** * Facts about strings, arrays, maps *)

Module JsFacts.

Lemma str_eqb_eq (a b : jsstring) : str_eqb a b = true <-> a = b.
Proof.
  unfold str_eqb. destruct (list_eq_dec N.eq_dec a b); split;
    congruence.
Qed.

Lemma str_eqb_neq (a b : jsstring) : str_eqb a b = false <-> a <> b.
Proof.
  unfold str_eqb. destruct (list_eq_dec N.eq_dec a b); split;
    congruence.
Qed.

(** ** trim *)

Lemma trimStart_idem (s : jsstring) : trimStart (trimStart s) = trimStart s.
Proof.
  induction s as [|c s IH]; simpl; [reflexivity|].
  destruct (is_ws c) eqn:E; [exact IH|]. simpl. now rewrite E.
Qed.

Lemma trimStart_app (l m : jsstring) :
  trimStart (l ++ m) =
  match trimStart l with
  | [] => trimStart m
  | _ :: _ => trimStart l ++ m
  end.
Proof.
  induction l as [|c l IH]; simpl; [reflexivity|].
  destruct (is_ws c); [exact IH | reflexivity].
Qed.

(** A string with white space at neither end is its own [trim]. *)
Lemma trim_idem (s : jsstring) : trim (trim s) = trim s.
Proof.
  unfold trim, trimEnd.
  destruct (trimStart s) as [|c t] eqn:Hs; [reflexivity|].
  assert (Hc : is_ws c = false).
  { clear -Hs. induction s as [|d s IH]; simpl in Hs; [discriminate|].
    destruct (is_ws d) eqn:E; [auto|]. now inversion Hs; subst. }
  set (r := trimStart (rev (c :: t))).
  assert (Hr : exists r', rev r = c :: r').
  { subst r. simpl rev. rewrite trimStart_app.
    destruct (trimStart (rev t)) as [|d u]; simpl.
    - rewrite Hc. simpl. now exists [].
    - rewrite rev_app_distr. simpl. eauto. }
  destruct Hr as [r' Hr]. rewrite Hr. simpl trimStart at 2. rewrite Hc.
  rewrite <- Hr, rev_involutive. subst r. now rewrite trimStart_idem.
Qed.

(** A trailing white-space character does not survive [trim]. *)
Lemma trim_app_ws (s : jsstring) (c : N) :
  is_ws c = true -> trim (s ++ [c]) = trim s.
Proof.
  intros Hc. unfold trim, trimEnd. rewrite trimStart_app.
  destruct (trimStart s) as [|d t] eqn:Hs.
  - simpl. now rewrite Hc.
  - rewrite rev_app_distr. simpl rev at 1. simpl app at 1.
    simpl trimStart at 1. now rewrite Hc.
Qed.

(** ** split and the runs of a string *)

Lemma truthy_rev (s : jsstring) : truthy (rev s) = truthy s.
Proof.
  destruct s as [|c s]; [reflexivity|]. simpl.
  destruct (rev s); reflexivity.
Qed.

Lemma split_scan_runs (s : jsstring) : forall tok in_ws,
  (in_ws = true -> tok = []) ->
  length (filter truthy (split_scan tok in_ws s)) =
  (if truthy tok then 1 else 0) + WordCount.runs_from (negb (truthy tok)) s.
Proof.
  induction s as [|c s IH]; intros tok in_ws Hinv; simpl.
  - rewrite truthy_rev. destruct (truthy tok); reflexivity.
  - destruct (is_ws c) eqn:Hc.
    + destruct in_ws.
      * rewrite (Hinv eq_refl). rewrite IH by reflexivity. reflexivity.
      * cbn [filter]. rewrite truthy_rev.
        destruct (truthy tok); cbn [length negb];
          rewrite IH by reflexivity; reflexivity.
    + rewrite IH by discriminate. simpl. destruct (truthy tok); simpl; lia.
Qed.

Lemma split_ws_runs (s : jsstring) :
  length (filter truthy (split_ws s)) = WordCount.word_runs s.
Proof. unfold split_ws. now rewrite split_scan_runs. Qed.

(** ** reduce with a sum *)

Lemma fold_left_sum (A : Type) (f : A -> nat) (l : list A) : forall a,
  fold_left (fun sum x => sum + f x) l a = a + sum_by f l.
Proof.
  unfold sum_by. induction l as [|x l IH]; intros a; simpl; [lia|].
  rewrite (IH (a + f x)), (IH (f x)). lia.
Qed.

Lemma sum_by_cons (A : Type) (f : A -> nat) (x : A) (l : list A) :
  sum_by f (x :: l) = f x + sum_by f l.
Proof. unfold sum_by at 1. simpl. now rewrite fold_left_sum. Qed.

Lemma sum_by_app (A : Type) (f : A -> nat) (l m : list A) :
  sum_by f (l ++ m) = sum_by f l + sum_by f m.
Proof.
  induction l as [|x l IH]; [reflexivity|].
  simpl app. rewrite !sum_by_cons, IH. lia.
Qed.

Lemma sum_by_map (A B : Type) (g : A -> B) (f : B -> nat) (l : list A) :
  sum_by f (List.map g l) = sum_by (fun x => f (g x)) l.
Proof.
  induction l as [|x l IH]; [reflexivity|].
  simpl List.map. now rewrite !sum_by_cons, IH.
Qed.

Lemma sum_by_perm (A : Type) (f : A -> nat) (l m : list A) :
  Permutation l m -> sum_by f l = sum_by f m.
Proof.
  induction 1; rewrite ?sum_by_cons; lia.
Qed.

Lemma sum_by_ext (A : Type) (f g : A -> nat) (l : list A) :
  (forall x, f x = g x) -> sum_by f l = sum_by g l.
Proof.
  intros H. induction l as [|x l IH]; [reflexivity|].
  now rewrite !sum_by_cons, IH, H.
Qed.

Lemma sum_by_flat_map (A B : Type) (g : A -> list B) (f : B -> nat)
    (l : list A) :
  sum_by f (flat_map g l) = sum_by (fun x => sum_by f (g x)) l.
Proof.
  induction l as [|x l IH]; [reflexivity|].
  simpl flat_map. now rewrite sum_by_app, sum_by_cons, IH.
Qed.

(** ** sort *)

Section SortFacts.
Variable A : Type.
Variable cmp : A -> A -> Z.

Lemma sort_insert_perm (x : A) (l : list A) :
  Permutation (sort_insert cmp x l) (x :: l).
Proof.
  induction l as [|y l IH]; simpl; [reflexivity|].
  destruct (cmp x y <=? 0)%Z; [reflexivity|].
  rewrite IH. apply perm_swap.
Qed.

Lemma sort_perm (l : list A) : Permutation (sort cmp l) l.
Proof.
  induction l as [|x l IH]; simpl; [reflexivity|].
  rewrite sort_insert_perm. now constructor.
Qed.

Lemma sort_length (l : list A) : length (sort cmp l) = length l.
Proof. apply Permutation_length, sort_perm. Qed.

(** The comparator ranks any two elements one way or the other, and
    ranks transitively. *)
Hypothesis cmp_total : forall a b, precedes cmp a b \/ precedes cmp b a.
Hypothesis cmp_trans : forall a b c, precedes cmp a b -> precedes cmp b c -> precedes cmp a c.

Lemma sort_insert_sorted (x : A) (l : list A) :
  StronglySorted (precedes cmp) l -> StronglySorted (precedes cmp) (sort_insert cmp x l).
Proof.
  induction 1 as [|y l Hs IH Hy]; simpl.
  - repeat constructor.
  - destruct (cmp x y <=? 0)%Z eqn:E.
    + apply Z.leb_le in E. constructor.
      * now constructor.
      * constructor; [exact E|].
        eapply Forall_impl; [|exact Hy]. intros z Hz.
        eapply cmp_trans; eassumption.
    + apply Z.leb_gt in E. constructor; [exact IH|].
      assert (Hyx : precedes cmp y x).
      { destruct (cmp_total x y) as [H|H]; [unfold precedes in H; lia | exact H]. }
      eapply Permutation_Forall.
      * symmetry. apply sort_insert_perm.
      * now constructor.
Qed.

Lemma sort_sorted (l : list A) : StronglySorted (precedes cmp) (sort cmp l).
Proof.
  induction l as [|x l IH]; simpl; [constructor|].
  now apply sort_insert_sorted.
Qed.

(** Stability: the elements of a class whose members the comparator
    does not rank one above the other stay in the order of the array. *)
Lemma sort_insert_filter (p : A -> bool) (x : A) (l : list A) :
  (forall a b, p a = true -> p b = true -> precedes cmp a b) ->
  filter p (sort_insert cmp x l) = filter p (x :: l).
Proof.
  intros Hp. induction l as [|y l IH]; [reflexivity|].
  simpl sort_insert. destruct (cmp x y <=? 0)%Z eqn:E; [reflexivity|].
  apply Z.leb_gt in E. simpl in *.
  destruct (p x) eqn:Hx, (p y) eqn:Hy; rewrite IH; try reflexivity.
  specialize (Hp x y Hx Hy). unfold precedes in Hp. lia.
Qed.

Lemma sort_filter (p : A -> bool) (l : list A) :
  (forall a b, p a = true -> p b = true -> precedes cmp a b) ->
  filter p (sort cmp l) = filter p l.
Proof.
  intros Hp. induction l as [|x l IH]; [reflexivity|].
  simpl sort. rewrite sort_insert_filter by exact Hp.
  simpl. now rewrite IH.
Qed.
End SortFacts.

Lemma in_slice0 (A : Type) (n : nat) (l : list A) (x : A) :
  In x (slice0 n l) -> In x l.
Proof.
  unfold slice0. intros H. rewrite <- (firstn_skipn n l).
  apply in_or_app. now left.
Qed.

Lemma sorted_app_le (A : Type) (R : A -> A -> Prop) (l m : list A) :
  StronglySorted R (l ++ m) ->
  forall x y, In x l -> In y m -> R x y.
Proof.
  induction l as [|z l IH]; simpl; intros Hs x y Hx Hy; [easy|].
  inversion Hs as [|? ? Hs' Hz]; subst.
  destruct Hx as [->|Hx].
  - rewrite Forall_forall in Hz. apply Hz, in_or_app. now right.
  - now apply IH.
Qed.

(** ** localeCompare *)

Lemma localeCompare_le (a : jsstring) : forall b,
  (localeCompare a b <= 0)%Z <-> WordCount.lex_le a b.
Proof.
  induction a as [|x a IH]; intros [|y b]; simpl.
  - split; [constructor | lia].
  - split; [constructor | lia].
  - split; [lia | inversion 1].
  - destruct (N.compare x y) eqn:E.
    + apply N.compare_eq in E. subst y. rewrite IH. split.
      * now constructor.
      * inversion 1; subst; [lia | assumption].
    + apply N.compare_lt_iff in E. split; [now constructor | lia].
    + apply N.compare_gt_iff in E. split; [lia|].
      inversion 1; subst; lia.
Qed.

Lemma localeCompare_antisym (a : jsstring) : forall b,
  localeCompare b a = (- localeCompare a b)%Z.
Proof.
  induction a as [|x a IH]; intros [|y b]; simpl; try reflexivity.
  rewrite (N.compare_antisym x y).
  destruct (N.compare x y); simpl; auto.
Qed.

Lemma localeCompare_total (a b : jsstring) :
  (localeCompare a b <= 0)%Z \/ (localeCompare b a <= 0)%Z.
Proof. rewrite (localeCompare_antisym a b). lia. Qed.

Lemma localeCompare_trans (a : jsstring) : forall b c,
  (localeCompare a b <= 0)%Z -> (localeCompare b c <= 0)%Z ->
  (localeCompare a c <= 0)%Z.
Proof.
  induction a as [|x a IH]; intros [|y b] [|z c]; simpl; try lia.
  destruct (N.compare x y) eqn:Exy; try lia.
  - apply N.compare_eq in Exy. subst y.
    destruct (N.compare x z); try lia. apply IH.
  - destruct (N.compare y z) eqn:Eyz; try lia.
    + apply N.compare_eq in Eyz. subst z. rewrite Exy. lia.
    + pose proof (N.lt_trans x y z Exy Eyz) as H.
      unfold N.lt in H. rewrite H. lia.
Qed.

(** ** Map *)

Section MapFacts.
Variables K V : Type.
Variable eqb : K -> K -> bool.
Hypothesis eqb_eq : forall a b, eqb a b = true <-> a = b.

Lemma eqb_refl (a : K) : eqb a a = true.
Proof. now apply eqb_eq. Qed.

Lemma eqb_neq (a b : K) : a <> b -> eqb a b = false.
Proof.
  intros H. destruct (eqb a b) eqn:E; [|reflexivity].
  now apply eqb_eq in E.
Qed.

Lemma map_get_set_same (k : K) (v : V) (m : Map K V) :
  map_get eqb k (map_set eqb k v m) = Some v.
Proof.
  induction m as [|[k' v'] m IH]; simpl.
  - now rewrite eqb_refl.
  - destruct (eqb k k') eqn:E; simpl; rewrite E; [reflexivity | exact IH].
Qed.

Lemma map_get_set_other (k k' : K) (v : V) (m : Map K V) :
  k <> k' -> map_get eqb k (map_set eqb k' v m) = map_get eqb k m.
Proof.
  intros Hk. induction m as [|[k0 v0] m IH]; simpl.
  - now rewrite (eqb_neq Hk).
  - destruct (eqb k' k0) eqn:E; simpl.
    + apply eqb_eq in E. subst k0. now rewrite (eqb_neq Hk).
    + destruct (eqb k k0); [reflexivity | exact IH].
Qed.

Lemma map_get_none (k : K) (m : Map K V) :
  map_get eqb k m = None <-> ~ In k (map_keys m).
Proof.
  induction m as [|[k' v'] m IH]; simpl; [tauto|].
  destruct (eqb k k') eqn:E.
  - apply eqb_eq in E. subst. split; [discriminate | tauto].
  - rewrite IH. split; [|tauto]. intros H [Hk|Hk]; [|tauto].
    subst. now rewrite eqb_refl in E.
Qed.

Lemma map_keys_set (k : K) (v : V) (m : Map K V) :
  map_keys (map_set eqb k v m) =
  match map_get eqb k m with
  | Some _ => map_keys m
  | None => map_keys m ++ [k]
  end.
Proof.
  unfold map_keys.
  induction m as [|[k' v'] m IH]; simpl; [reflexivity|].
  destruct (eqb k k') eqn:E; simpl; [reflexivity|].
  rewrite IH. destruct (map_get eqb k m); reflexivity.
Qed.

Lemma map_keys_set_nodup (k : K) (v : V) (m : Map K V) :
  NoDup (map_keys m) -> NoDup (map_keys (map_set eqb k v m)).
Proof.
  intros Hm. rewrite map_keys_set.
  destruct (map_get eqb k m) eqn:E; [exact Hm|].
  apply map_get_none in E.
  apply NoDup_rev in Hm. rewrite <- (rev_involutive (map_keys m ++ [k])).
  apply NoDup_rev. rewrite rev_app_distr. simpl. constructor; [|exact Hm].
  now rewrite <- in_rev.
Qed.

(** What [set] does to a sum over the values. *)
Lemma map_set_sum (f : V -> nat) (k : K) (v : V) (m : Map K V) :
  sum_by f (map_values (map_set eqb k v m))
  + match map_get eqb k m with Some old => f old | None => 0 end
  = sum_by f (map_values m) + f v.
Proof.
  unfold map_values.
  induction m as [|[k' v'] m IH]; simpl.
  - unfold sum_by. simpl. lia.
  - destruct (eqb k k'); simpl; rewrite !sum_by_cons; simpl; lia.
Qed.

(** In a map whose values name their own key, the values carrying a key
    are the one stored under it. *)
Lemma map_values_of_key (key_of : V -> K) (k : K) (v : V) (m : Map K V) :
  NoDup (map_keys m) ->
  (forall k' v', In (k', v') m -> key_of v' = k') ->
  map_get eqb k m = Some v ->
  filter (fun v' => eqb (key_of v') k) (map_values m) = [v].
Proof.
  unfold map_values, map_keys.
  induction m as [|[k' v'] m IH]; simpl; intros Hnd Hkey Hget;
    [discriminate|].
  inversion Hnd as [|? ? Hnotin Hnd']; subst.
  rewrite (Hkey k' v' (or_introl eq_refl)).
  destruct (eqb k k') eqn:E.
  - apply eqb_eq in E. subst k'. injection Hget as ->.
    rewrite eqb_refl. f_equal.
    assert (Hnone : forall l,
               (forall k' v', In (k', v') l -> key_of v' = k') ->
               ~ In k (List.map fst l) ->
               filter (fun v' => eqb (key_of v') k) (List.map snd l) = []).
    { induction l as [|[k1 v1] l IHl]; simpl; intros Hk Hn; [reflexivity|].
      rewrite (Hk k1 v1 (or_introl eq_refl)).
      rewrite eqb_neq by (intros ->; apply Hn; now left).
      apply IHl; [intros; apply Hk; now right | tauto]. }
    apply Hnone; [intros; apply Hkey; now right | exact Hnotin].
  - assert (E' : eqb k' k = false).
    { apply eqb_neq. intros ->. now rewrite eqb_refl in E. }
    rewrite E'. apply IH; [exact Hnd' | intros; apply Hkey; now right | exact Hget].
Qed.

Lemma map_set_in (k : K) (v : V) (m : Map K V) (k' : K) (v' : V) :
  In (k', v') (map_set eqb k v m) -> (k' = k /\ v' = v) \/ In (k', v') m.
Proof.
  induction m as [|[k0 v0] m IH]; simpl.
  - intros [[= <- <-]|[]]. now left.
  - destruct (eqb k k0) eqn:E; simpl.
    + apply eqb_eq in E. subst k0.
      intros [[= <- <-]|H]; [now left | right; now right].
    + intros [H|H]; [right; now left|].
      destruct (IH H) as [H'|H']; [now left | right; now right].
Qed.
Lemma map_get_in (k : K) (v : V) (m : Map K V) :
  NoDup (map_keys m) -> In (k, v) m -> map_get eqb k m = Some v.
Proof.
  unfold map_keys.
  induction m as [|[k' v'] m IH]; simpl; intros Hnd Hin; [easy|].
  inversion Hnd as [|? ? Hnotin Hnd']; subst.
  destruct Hin as [[= -> ->]|Hin].
  - now rewrite eqb_refl.
  - destruct (eqb k k') eqn:E; [|now apply IH].
    apply eqb_eq in E. subst k'. exfalso. apply Hnotin.
    change k with (fst (k, v)). now apply in_map.
Qed.
End MapFacts.

Lemma sorted_weaken (A : Type) (R S : A -> A -> Prop) (l : list A) :
  (forall a b, R a b -> S a b) -> StronglySorted R l -> StronglySorted S l.
Proof.
  intros HRS. induction 1 as [|x l Hs IH Hx]; constructor; [exact IH|].
  eapply Forall_impl; [|exact Hx]. intros; now apply HRS.
Qed.

End JsFacts.

(* ================================================================== *)
(** * Properties of the word-count analysis *)

Module WordCountFacts.
Import WordCount JsFacts.

(** Induction on a tree, the children of a node taken together. *)
Lemma StructureNode_tree_ind (P : StructureNode -> Prop) :
  (forall id ty lb c t, P (Node id ty lb c t None)) ->
  (forall id ty lb c t cs, Forall P cs -> P (Node id ty lb c t (Some cs))) ->
  forall node, P node.
Proof.
  intros Hleaf Hnode. fix IH 1. intros [id ty lb c t [cs|]].
  - apply Hnode.
    refine ((fix all (l : list StructureNode) : Forall P l :=
               match l with
               | [] => Forall_nil P
               | x :: l' => Forall_cons x (IH x) (all l')
               end) cs).
  - apply Hleaf.
Qed.

(** ** The walk as a fold over the nodes in pre-order *)

Lemma processNode_preorder (node : StructureNode) : forall w,
  processNode node w =
  (sum_by own_words (preorder node),
   fold_left (fun w n => snd (visit n w)) (preorder node) w).
Proof.
  induction node as [id ty lb c t | id ty lb c t cs IH]
    using StructureNode_tree_ind; intros w.
  - cbn [processNode preorder fold_left].
    set (nd := Node id ty lb c t None).
    change (visit nd w) with (own_words nd, snd (visit nd w)).
    cbv iota beta. rewrite sum_by_cons. reflexivity.
  - cbn [processNode preorder fold_left].
    set (nd := Node id ty lb c t (Some cs)).
    change (visit nd w) with (own_words nd, snd (visit nd w)).
    cbv iota beta.
    rewrite sum_by_cons.
    generalize (snd (visit nd w)). intros w1.
    assert (Heach : forall acc w,
      (fix each (cs : list StructureNode) (childWordsTotal : nat) (w : Walk)
         {struct cs} : nat * Walk :=
         match cs with
         | [] => (childWordsTotal, w)
         | child :: cs' =>
             let '(n, w') := processNode child w in
             each cs' (childWordsTotal + n) w'
         end) cs acc w =
      (acc + sum_by own_words (flat_map preorder cs),
       fold_left (fun w n => snd (visit n w)) (flat_map preorder cs) w)).
    { induction IH as [|x l Hx Hl IHl]; intros acc w'.
      - unfold sum_by. simpl. f_equal. lia.
      - rewrite Hx. simpl flat_map. rewrite sum_by_app, fold_left_app.
        rewrite IHl. f_equal. lia. }
    rewrite Heach. reflexivity.
Qed.

Lemma walk_elements (nodes : list StructureNode) : forall w,
  elements (fold_left (fun w n => snd (visit n w)) nodes w) =
  elements w ++ List.map element_of nodes.
Proof.
  induction nodes as [|n nodes IH]; intros w; simpl.
  - now rewrite app_nil_r.
  - rewrite IH. simpl. now rewrite <- app_assoc.
Qed.

Lemma walk_counts (nodes : list StructureNode) : forall w,
  hierarchyCounts (fold_left (fun w n => snd (visit n w)) nodes w) =
  fold_left tally nodes (hierarchyCounts w).
Proof.
  induction nodes as [|n nodes IH]; intros w; simpl; [reflexivity|].
  now rewrite IH.
Qed.

Lemma records_preorder (structure : TitleStructure) :
  records structure = List.map element_of (preorder (as_node structure)).
Proof.
  unfold records. rewrite processNode_preorder. simpl snd.
  now rewrite walk_elements.
Qed.

Lemma analyze_totalWords (structure : TitleStructure) :
  totalWords (analyzeWordCount structure) =
  sum_by own_words (preorder (as_node structure)).
Proof.
  unfold analyzeWordCount. now rewrite processNode_preorder.
Qed.

(** ** The analysis on the trees of the tests *)

(** 'should count words in section content': ten words in all, and the
    table has the entry of the one section. *)
Example sample_structure_totals :
  totalWords (analyzeWordCount sample_structure) = 10 /\
  totalElements (analyzeWordCount sample_structure) = 4 /\
  In {| h_type := lit "section"; h_count := 1; h_totalWords := 10;
        averageWords := Finite (10 # 1) |}
     (byHierarchy (analyzeWordCount sample_structure)) /\
  List.map h_type (byHierarchy (analyzeWordCount sample_structure)) =
  [lit "chapter"; lit "part"; lit "section"; lit "title"].
Proof. vm_compute. intuition. Qed.

(** White space at the ends and runs of white space between words. *)
Example countWords_spaces :
  countWords (trim (lit "  two   words ")) = 2 /\
  split_ws (lit "  a b ") = [[]; lit "a"; lit "b"; []] /\
  split_ws [] = [[]] /\
  countWords [] = 0.
Proof. repeat split. Qed.

(** ** Word and character totals *)

(** C1.  The [totalWords] of [analyzeWordCount] is the sum of [wordCount]
    over the Element Word-Count records produced for the tree.  For every
    subtree, [processNode] returns the root's own word count plus the sum of
    the own word counts of all its descendants, and leaves one record per
    node of the subtree, in the order of the walk. *)
Theorem totalWords_additive :
  (forall structure,
      totalWords (analyzeWordCount structure) =
      sum_by wordCount (records structure)) /\
  (forall node w,
      fst (processNode node w) =
      own_words node + sum_by own_words (descendants node)) /\
  (forall node w,
      elements (snd (processNode node w)) =
      elements w ++ List.map element_of (preorder node)).
Proof.
  split; [|split].
  - intros structure.
    rewrite analyze_totalWords, records_preorder, sum_by_map. reflexivity.
  - intros node w. rewrite processNode_preorder. simpl fst.
    unfold descendants. destruct node as [id ty lb c t ch].
    cbn [preorder tl]. now rewrite sum_by_cons.
  - intros node w. rewrite processNode_preorder. simpl snd.
    apply walk_elements.
Qed.

(** C10.  The [totalCharacters] of [analyzeWordCount] is the sum of
    [characterCount] over the Element Word-Count records produced for the
    tree, that is the sum over the nodes of the length of their own text. *)
Theorem totalCharacters_additive (structure : TitleStructure) :
  totalCharacters (analyzeWordCount structure) =
  sum_by characterCount (records structure) /\
  totalCharacters (analyzeWordCount structure) =
  sum_by (fun node => length (getNodeContent node))
         (preorder (as_node structure)).
Proof.
  assert (H : totalCharacters (analyzeWordCount structure) =
              sum_by characterCount (records structure)).
  { unfold analyzeWordCount, records.
    destruct (processNode (as_node structure) _) as [n w]. reflexivity. }
  split; [exact H|].
  rewrite H, records_preorder, sum_by_map. reflexivity.
Qed.

(** ** A node's own text *)

Lemma getNodeContent_joined (node : StructureNode) :
  getNodeContent node = trim (joined_fields node).
Proof.
  unfold getNodeContent, joined_fields.
  destruct node as [id ty lb c t ch]; cbn [content text].
  assert (Hc : (if truthy_opt c
                then [] ++ match c with Some c0 => c0 | None => [] end
                else []) = match c with Some c0 => c0 | None => [] end).
  { destruct c as [[|x c]|]; reflexivity. }
  rewrite Hc. destruct t as [[|x t]|]; cbn [truthy_opt truthy].
  - rewrite app_nil_r. symmetry. apply trim_app_ws. reflexivity.
  - reflexivity.
  - now rewrite app_nil_r.
Qed.

Lemma countWords_trimmed (s : jsstring) :
  countWords (trim s) = word_runs (trim s).
Proof.
  unfold countWords. rewrite trim_idem, split_ws_runs.
  destruct (trim s); reflexivity.
Qed.

(** C3.  A node's own text is the [trim] of its [content] followed, when it
    has a [text], by a space and the [text].  The record [processNode]
    pushes for the node has for [wordCount] the number of maximal runs of
    non-white-space characters of the own text and for [characterCount] its
    length; both are 0 for a node with neither field. *)
Theorem own_text_counts :
  (forall node,
      getNodeContent node = trim (joined_fields node) /\
      wordCount (element_of node) = word_runs (getNodeContent node) /\
      characterCount (element_of node) = length (getNodeContent node)) /\
  (forall id ty lb ch,
      let node := Node id ty lb None None ch in
      getNodeContent node = [] /\
      wordCount (element_of node) = 0 /\
      characterCount (element_of node) = 0) /\
  (forall node w, exists rest,
      elements (snd (processNode node w)) =
      elements w ++ element_of node :: rest).
Proof.
  split; [|split].
  - intros node. split; [apply getNodeContent_joined|]. split.
    + unfold element_of. cbn [wordCount].
      rewrite getNodeContent_joined. apply countWords_trimmed.
    + reflexivity.
  - intros id ty lb ch. repeat split.
  - intros node w. exists (List.map element_of (descendants node)).
    rewrite processNode_preorder. simpl snd. rewrite walk_elements.
    destruct node as [id ty lb c t ch]. reflexivity.
Qed.

(** ** The per-type table *)

Lemma counts_get (nodes : list StructureNode) : forall m k,
  map_get str_eqb k (fold_left tally nodes m) =
  let ns := nodes_of_type k nodes in
  match map_get str_eqb k m with
  | Some e =>
      Some {| hc_count := hc_count e + length ns;
              hc_totalWords := hc_totalWords e + sum_by own_words ns |}
  | None =>
      match ns with
      | [] => None
      | _ :: _ => Some {| hc_count := length ns;
                          hc_totalWords := sum_by own_words ns |}
      end
  end.
Proof.
  induction nodes as [|n nodes IH]; intros m k.
  - cbn. destruct (map_get str_eqb k m) as [[c t]|]; [|reflexivity].
    cbn. do 2 f_equal; [lia | unfold sum_by; simpl; lia].
  - cbn [fold_left]. rewrite IH. unfold nodes_of_type. cbn [filter].
    unfold tally, bump.
    destruct (str_eqb (type_name (type n)) k) eqn:E.
    + apply str_eqb_eq in E. subst k.
      rewrite (map_get_set_same str_eqb str_eqb_eq).
      cbv zeta. cbn [hc_count hc_totalWords length]. rewrite sum_by_cons.
      destruct (map_get str_eqb (type_name (type n)) m) as [[c t]|];
        cbn [hc_count hc_totalWords].
      * do 2 f_equal; lia.
      * destruct (filter _ nodes) eqn:F; cbn [length].
        -- unfold sum_by. cbn. do 2 f_equal; lia.
        -- do 2 f_equal; lia.
    + apply str_eqb_neq in E.
      rewrite (map_get_set_other str_eqb str_eqb_eq) by congruence.
      reflexivity.
Qed.

Lemma counts_nodup (nodes : list StructureNode) : forall m,
  NoDup (map_keys m) -> NoDup (map_keys (fold_left tally nodes m)).
Proof.
  induction nodes as [|n nodes IH]; intros m Hm; [exact Hm|].
  cbn [fold_left]. apply IH. unfold tally, bump.
  now apply (map_keys_set_nodup str_eqb str_eqb_eq).
Qed.

Lemma counts_sum (nodes : list StructureNode) : forall m,
  sum_by hc_count (map_values (fold_left tally nodes m)) =
  sum_by hc_count (map_values m) + length nodes.
Proof.
  induction nodes as [|n nodes IH]; intros m; cbn [fold_left length];
    [lia|].
  rewrite IH. unfold tally, bump.
  pose proof (map_set_sum str_eqb hc_count (type_name (type n))
    {| hc_count :=
         hc_count match map_get str_eqb (type_name (type n)) m with
                  | Some e => e
                  | None => {| hc_count := 0; hc_totalWords := 0 |}
                  end + 1;
       hc_totalWords :=
         hc_totalWords match map_get str_eqb (type_name (type n)) m with
                       | Some e => e
                       | None => {| hc_count := 0; hc_totalWords := 0 |}
                       end + own_words n |} m) as H.
  cbn [hc_count] in H.
  destruct (map_get str_eqb (type_name (type n)) m);
    cbn [hc_count hc_totalWords] in *; lia.
Qed.

Lemma analyze_counts (structure : TitleStructure) :
  hierarchyCounts
    (snd (processNode (as_node structure)
                      {| elements := []; hierarchyCounts := [] |})) =
  fold_left tally (preorder (as_node structure)) [].
Proof.
  rewrite processNode_preorder. simpl snd. now rewrite walk_counts.
Qed.

Lemma analyze_byHierarchy (structure : TitleStructure) :
  byHierarchy (analyzeWordCount structure) =
  sort (fun a b => localeCompare (h_type a) (h_type b))
       (List.map to_hierarchy
          (fold_left tally (preorder (as_node structure)) [])).
Proof.
  rewrite <- analyze_counts. unfold analyzeWordCount.
  destruct (processNode (as_node structure) _) as [n w]. reflexivity.
Qed.

Lemma to_hierarchy_types (m : HierarchyCounts) :
  List.map h_type (List.map to_hierarchy m) = map_keys m.
Proof.
  unfold map_keys. rewrite map_map. apply map_ext. now intros [k d].
Qed.

Lemma table_entry (nodes : list StructureNode) (k : jsstring)
    (d : HierarchyCount) :
  In (k, d)
     (fold_left tally nodes []) ->
  d = {| hc_count := length (nodes_of_type k nodes);
         hc_totalWords := sum_by own_words (nodes_of_type k nodes) |} /\
  0 < length (nodes_of_type k nodes).
Proof.
  intros Hin.
  apply (map_get_in str_eqb str_eqb_eq) in Hin;
    [|apply counts_nodup; constructor].
  rewrite counts_get in Hin. cbv zeta in Hin. cbn [map_get] in Hin.
  destruct (nodes_of_type k nodes) as [|n ns]; [discriminate|].
  injection Hin as <-. split; [reflexivity | simpl; lia].
Qed.

Lemma table_key (nodes : list StructureNode) (k : jsstring) :
  In k (map_keys
          (fold_left tally nodes [])) <->
  exists n, In n nodes /\ type_name (type n) = k.
Proof.
  set (m := fold_left tally nodes []).
  pose proof (counts_get nodes [] k) as Hget.
  cbv zeta in Hget. cbn [map_get] in Hget. fold m in Hget.
  pose proof (map_get_none str_eqb str_eqb_eq k m) as Hnone.
  split.
  - intros Hin. destruct (nodes_of_type k nodes) as [|n ns] eqn:E.
    + exfalso. now apply Hnone.
    + exists n. assert (Hn : In n (nodes_of_type k nodes))
        by (rewrite E; now left).
      apply filter_In in Hn. destruct Hn as [Hn Hk].
      now apply str_eqb_eq in Hk.
  - intros [n [Hn Hk]].
    assert (Hf : In n (nodes_of_type k nodes)).
    { apply filter_In. split; [exact Hn | now apply str_eqb_eq]. }
    destruct (nodes_of_type k nodes) as [|n' ns]; [easy|].
    destruct (in_dec (list_eq_dec N.eq_dec) k (map_keys m)) as [H|H];
      [exact H|].
    apply Hnone in H. congruence.
Qed.

(** C6.  [byHierarchy] has one record for each type that occurs in the
    tree and no other.  A record's [count] is the number of nodes of its
    type and its [totalWords] the sum of their own word counts; [count] is
    positive and [averageWords] is [totalWords / count].  The counts add up
    to the number of nodes.  The records are in the dictionary order of
    their types. *)
Theorem byHierarchy_partition (structure : TitleStructure) :
  let nodes := preorder (as_node structure) in
  let table := byHierarchy (analyzeWordCount structure) in
  NoDup (List.map h_type table) /\
  (forall ty, In ty (List.map h_type table) <->
              exists n, In n nodes /\ type_name (type n) = ty) /\
  Forall (fun h =>
            h_count h = length (nodes_of_type (h_type h) nodes) /\
            h_totalWords h = sum_by own_words (nodes_of_type (h_type h) nodes) /\
            0 < h_count h /\
            averageWords h =
            Finite (Z.of_nat (h_totalWords h) # Pos.of_nat (h_count h)))
         table /\
  sum_by h_count table = length nodes /\
  StronglySorted (fun a b => lex_le (h_type a) (h_type b)) table.
Proof.
  intros nodes table. subst table. rewrite analyze_byHierarchy. fold nodes.
  set (m := fold_left tally nodes []).
  set (cmp := fun a b => localeCompare (h_type a) (h_type b)).
  pose proof (sort_perm cmp (List.map to_hierarchy m)) as Hperm.
  assert (Htypes : Permutation (List.map h_type (sort cmp (List.map to_hierarchy m)))
                               (map_keys m)).
  { rewrite <- to_hierarchy_types. now apply Permutation_map. }
  split; [|split; [|split; [|split]]].
  - eapply Permutation_NoDup; [symmetry; exact Htypes|].
    apply counts_nodup. constructor.
  - intros ty. rewrite <- table_key. fold m.
    split; intros H.
    + eapply Permutation_in; [exact Htypes | exact H].
    + eapply Permutation_in; [symmetry; exact Htypes | exact H].
  - eapply Permutation_Forall; [symmetry; exact Hperm|].
    apply Forall_forall. intros h Hh. apply in_map_iff in Hh.
    destruct Hh as [[k d] [<- Hin]].
    apply table_entry in Hin. destruct Hin as [-> Hpos].
    cbn [to_hierarchy h_type h_count h_totalWords averageWords hc_count
         hc_totalWords].
    repeat split; try exact Hpos.
    apply Nat.ltb_lt in Hpos. rewrite Hpos. unfold div.
    apply Nat.ltb_lt in Hpos.
    destruct (length (nodes_of_type k nodes)); [lia | reflexivity].
  - rewrite (sum_by_perm h_count Hperm), sum_by_map.
    pose proof (counts_sum nodes []) as Hsum. fold m in Hsum.
    unfold map_values in Hsum. rewrite sum_by_map in Hsum.
    change (sum_by hc_count (List.map snd [])) with 0 in Hsum.
    rewrite Nat.add_0_l in Hsum. rewrite <- Hsum.
    apply sum_by_ext. now intros [k d].
  - apply sorted_weaken with (R := fun a b => (cmp a b <= 0)%Z).
    + intros a b. apply localeCompare_le.
    + apply sort_sorted.
      * intros a b. unfold precedes, cmp. apply localeCompare_total.
      * intros a b c. unfold precedes, cmp. apply localeCompare_trans.
Qed.

(** ** The longest elements *)

(** C8.  [topElements] is the first ten of the records ranked by
    decreasing [wordCount], records of equal [wordCount] keeping the order
    in which the walk met them: no record left out has more words than one
    that is kept, and a tree of at most ten nodes keeps them all. *)
Theorem topElements_ranked (structure : TitleStructure) :
  let els := records structure in
  let top := topElements (analyzeWordCount structure) in
  exists ranked,
    Permutation ranked els /\
    StronglySorted (fun a b => wordCount b <= wordCount a) ranked /\
    (forall w, filter (fun e => wordCount e =? w) ranked =
               filter (fun e => wordCount e =? w) els) /\
    top = firstn 10 ranked /\
    length top = Nat.min 10 (length (preorder (as_node structure))) /\
    Forall (fun x => Forall (fun y => wordCount y <= wordCount x)
                            (skipn 10 ranked)) top /\
    (length (preorder (as_node structure)) <= 10 -> top = ranked).
Proof.
  intros els top.
  set (cmp := fun a b : ElementWordCount =>
                (Z.of_nat (wordCount b) - Z.of_nat (wordCount a))%Z).
  exists (sort cmp els).
  assert (Htop : top = firstn 10 (sort cmp els)).
  { subst top els. unfold analyzeWordCount, records.
    destruct (processNode (as_node structure) _) as [n w]. reflexivity. }
  assert (Hlen : length els = length (preorder (as_node structure))).
  { subst els. now rewrite records_preorder, length_map. }
  assert (Hsorted : StronglySorted (fun a b => wordCount b <= wordCount a)
                                   (sort cmp els)).
  { apply sorted_weaken with (R := fun a b => (cmp a b <= 0)%Z).
    - unfold cmp. intros a b. lia.
    - apply sort_sorted; unfold precedes, cmp; intros; lia. }
  split; [apply sort_perm|]. split; [exact Hsorted|].
  split; [|split; [exact Htop|split; [|split]]].
  - intros w. apply sort_filter. unfold precedes, cmp. intros a b Ha Hb.
    apply Nat.eqb_eq in Ha, Hb. lia.
  - rewrite Htop, length_firstn, sort_length, Hlen. reflexivity.
  - rewrite Htop. apply Forall_forall. intros x Hx.
    apply Forall_forall. intros y Hy.
    rewrite <- (firstn_skipn 10 (sort cmp els)) in Hsorted.
    exact (sorted_app_le (R := fun a b => wordCount b <= wordCount a)
                         _ _ Hsorted x y Hx Hy).
  - intros Hsmall. rewrite Htop. apply firstn_all2.
    rewrite sort_length, Hlen. exact Hsmall.
Qed.

(** The sample tree has four nodes: its [topElements] are all its
    records. *)
Lemma topElements_ranked_witness :
  Permutation (topElements (analyzeWordCount sample_structure))
              (records sample_structure).
Proof.
  pose proof (topElements_ranked sample_structure) as H. cbv zeta in H.
  destruct H as (ranked & Hperm & _ & _ & _ & _ & _ & Hall).
  rewrite Hall; [exact Hperm | vm_compute; repeat constructor].
Defined.

(** ** The summary of a batch *)

Lemma reduce_pick_returns (better : nat -> nat -> bool)
    (results : list WordCountResult) : forall m,
  exists r, reduce_pick better results (Some m) = Returned (Some r) /\
            (r = m \/ In r results).
Proof.
  induction results as [|x results IH]; intros m; simpl.
  - exists m. auto.
  - destruct (IH (if better (totalWords x) (totalWords m) then x else m))
      as [r [Hr Hin]].
    exists r. split; [exact Hr|].
    destruct Hin as [->|Hin]; [|auto].
    destruct (better _ _); auto.
Qed.

(** C2, as the code has it.  [getWordCountSummary] throws for no batch.  For
    the empty batch it returns the record of zeros in which [longestTitle]
    and [shortestTitle] are [undefined]; for any other batch both are
    results of the batch. *)
Theorem summary_never_throws (results : list WordCountResult) :
  exists s,
    getWordCountSummary results = Returned s /\
    titleCount s = length results /\
    match results with
    | [] =>
        s = {| titleCount := 0; s_totalWords := 0; s_totalElements := 0;
               averageWordsPerTitle := Finite 0;
               longestTitle := None; shortestTitle := None |}
    | _ :: _ =>
        (exists r, longestTitle s = Some r /\ In r results) /\
        (exists r, shortestTitle s = Some r /\ In r results)
    end.
Proof.
  destruct results as [|x results].
  - eexists. split; [reflexivity|]. split; reflexivity.
  - unfold getWordCountSummary. cbn [nth_error].
    destruct (reduce_pick_returns (fun a b => b <? a) (x :: results) x)
      as [hi [Hhi Hin_hi]].
    destruct (reduce_pick_returns (fun a b => a <? b) (x :: results) x)
      as [lo [Hlo Hin_lo]].
    rewrite Hhi, Hlo. eexists. split; [reflexivity|].
    cbn [titleCount longestTitle shortestTitle]. split; [reflexivity|].
    split.
    + exists hi. split; [reflexivity|].
      destruct Hin_hi as [->|H]; [now left | exact H].
    + exists lo. split; [reflexivity|].
      destruct Hin_lo as [->|H]; [now left | exact H].
Qed.

(** C2, as the specification has it, fails: on the empty batch no error is
    raised, and the record returned has [longestTitle] [undefined]. *)
Lemma summary_of_empty_batch :
  ~ (exists e, getWordCountSummary [] = Thrown e) /\
  exists s, getWordCountSummary [] = Returned s /\ longestTitle s = None.
Proof.
  split.
  - intros [e He]. discriminate He.
  - eexists. split; reflexivity.
Qed.

End WordCountFacts.

(* ================================================================== *)
(** * Properties of the agency statistics *)

Module AgencyStatsFacts.
Import AgencyStats JsFacts.

(** Induction on an agency tree, the children of a node taken together. *)
Lemma Agency_tree_ind (P : Agency -> Prop) :
  (forall nm sn sl refs, P (mkAgency nm sn sl refs None)) ->
  (forall nm sn sl refs cs, Forall P cs -> P (mkAgency nm sn sl refs (Some cs))) ->
  forall agency, P agency.
Proof.
  intros Hleaf Hnode. fix IH 1. intros [nm sn sl refs [cs|]].
  - apply Hnode.
    refine ((fix all (l : list Agency) : Forall P l :=
               match l with
               | [] => Forall_nil P
               | x :: l' => Forall_cons x (IH x) (all l')
               end) cs).
  - apply Hleaf.
Qed.

(** ** The walk as a fold over the nodes in the order of the visit *)

Lemma processAgency_visited (agency : Agency) : forall results,
  processAgency agency results = fold_left store (visited agency) results.
Proof.
  induction agency as [nm sn sl refs | nm sn sl refs cs IH]
    using Agency_tree_ind; intros results.
  - reflexivity.
  - cbn [processAgency visited fold_left].
    set (nd := mkAgency nm sn sl refs (Some cs)).
    generalize (store results nd). intros r1.
    assert (Heach : forall r,
      (fix each (cs : list Agency) (results : Results) {struct cs}
         : Results :=
         match cs with
         | [] => results
         | child :: cs' => each cs' (processAgency child results)
         end) cs r = fold_left store (flat_map visited cs) r).
    { induction IH as [|x l Hx Hl IHl]; intros r; [reflexivity|].
      rewrite Hx. simpl flat_map. rewrite fold_left_app. apply IHl. }
    rewrite Heach. destruct cs; reflexivity.
Qed.

Lemma collect_forest (agencies : list Agency) :
  collect agencies = fold_left store (forest_nodes agencies) [].
Proof.
  unfold collect, forest_nodes. generalize ([] : Results).
  induction agencies as [|a agencies IH]; intros r; [reflexivity|].
  simpl. rewrite fold_left_app, IH, processAgency_visited. reflexivity.
Qed.

(** ** What the map holds after the walk *)

Lemma own_stat_slug (agency : Agency) (stat : AgencyStat) :
  own_stat agency = Some stat -> s_slug stat = slug agency.
Proof.
  unfold own_stat.
  destruct (match cfr_references agency with
            | Some refs => ref_sets refs
            | None => ([], [], [])
            end) as [[ts cs] ps].
  destruct (0 <? length ts); [|discriminate].
  now intros [= <-].
Qed.

Lemma among_in (l : list jsstring) (x : jsstring) :
  among l x = true <-> In x l.
Proof.
  unfold among. induction l as [|y l IH]; simpl; [split; [discriminate|easy]|].
  rewrite orb_true_iff, IH, str_eqb_eq. split; intros [H|H]; auto.
Qed.

Lemma among_snoc (l : list jsstring) (k x : jsstring) :
  among (l ++ [k]) x = among l x || str_eqb x k.
Proof.
  unfold among. induction l as [|y l IH]; simpl.
  - now rewrite orb_false_r.
  - now rewrite IH, orb_assoc.
Qed.

Lemma filter_filter (A : Type) (p q : A -> bool) (l : list A) :
  filter p (filter q l) = filter (fun x => q x && p x) l.
Proof.
  induction l as [|x l IH]; simpl; [reflexivity|].
  destruct (q x); simpl; [destruct (p x)|]; now rewrite IH.
Qed.

(** The keys, in insertion order: the distinct slugs of the nodes that
    store a record, in the order of their first visit. *)
Lemma stored_keys (nodes : list Agency) : forall m,
  map_keys (fold_left store nodes m) =
  map_keys m ++
  filter (fun k => negb (among (map_keys m) k))
         (distinct (List.map slug (filter has_references nodes))).
Proof.
  induction nodes as [|a nodes IH]; intros m.
  - simpl. now rewrite app_nil_r.
  - cbn [fold_left filter]. rewrite IH.
    change (has_references a)
      with (match own_stat a with Some _ => true | None => false end).
    unfold store.
    destruct (own_stat a) as [st|] eqn:Hst; [|reflexivity].
    cbn [List.map distinct filter].
    rewrite map_keys_set.
    destruct (map_get str_eqb (slug a) m) eqn:Hget.
    + assert (Hin : among (map_keys m) (slug a) = true).
      { apply among_in.
        destruct (in_dec (list_eq_dec N.eq_dec) (slug a) (map_keys m))
          as [H|H]; [exact H|].
        apply (map_get_none str_eqb str_eqb_eq) in H. congruence. }
      rewrite Hin. cbn [negb]. f_equal. rewrite filter_filter.
      apply filter_ext_in. intros y _.
      destruct (str_eqb y (slug a)) eqn:E; [|reflexivity].
      apply str_eqb_eq in E. subst y. now rewrite Hin.
    + assert (Hin : among (map_keys m) (slug a) = false).
      { destruct (among (map_keys m) (slug a)) eqn:E; [|reflexivity].
        apply among_in in E.
        now apply (map_get_none str_eqb str_eqb_eq) in Hget. }
      rewrite Hin. cbn [negb]. rewrite <- app_assoc. cbn [app]. do 2 f_equal.
      rewrite filter_filter. apply filter_ext. intros y.
      rewrite among_snoc, negb_orb. apply andb_comm.
Qed.

Lemma stored_nodup (nodes : list Agency) : forall m,
  NoDup (map_keys m) -> NoDup (map_keys (fold_left store nodes m)).
Proof.
  induction nodes as [|a nodes IH]; intros m Hm; [exact Hm|].
  cbn [fold_left]. apply IH. unfold store.
  destruct (own_stat a); [|exact Hm].
  now apply (map_keys_set_nodup str_eqb str_eqb_eq).
Qed.

Lemma stored_named (nodes : list Agency) : forall m,
  (forall k v, In (k, v) m -> s_slug v = k) ->
  forall k v, In (k, v) (fold_left store nodes m) -> s_slug v = k.
Proof.
  induction nodes as [|a nodes IH]; intros m Hm; [exact Hm|].
  cbn [fold_left]. apply IH. unfold store.
  destruct (own_stat a) as [st|] eqn:Hst; [|exact Hm].
  intros k v Hin. apply (map_set_in str_eqb str_eqb_eq) in Hin.
  destruct Hin as [[-> ->]|Hin]; [now apply own_stat_slug | now apply Hm].
Qed.

Lemma stored_get_other (nodes : list Agency) (k : jsstring) : forall m,
  (forall n, In n nodes -> slug n = k -> own_stat n = None) ->
  map_get str_eqb k (fold_left store nodes m) = map_get str_eqb k m.
Proof.
  induction nodes as [|a nodes IH]; intros m Hk; [reflexivity|].
  cbn [fold_left]. rewrite IH by (intros; apply Hk; [now right | assumption]).
  unfold store. destruct (own_stat a) as [st|] eqn:Hst; [|reflexivity].
  apply (map_get_set_other str_eqb str_eqb_eq).
  intros E. specialize (Hk a (or_introl eq_refl) (eq_sym E)). congruence.
Qed.

(** ** The statistics on the forests of the tests *)

(** 'should handle agencies with children': parent and child both count,
    the parent alone is a top-level agency. *)
Example parent_child_totals :
  agenciesWithReferences (analyzeAgencyStats parent_child_forest None) = 2 /\
  totalAgencies (analyzeAgencyStats parent_child_forest None) = 1 /\
  totalTitles (analyzeAgencyStats parent_child_forest None) = 50 /\
  averageTitlesPerAgency (analyzeAgencyStats parent_child_forest None) =
  Finite (2 # 2).
Proof. repeat split. Qed.

(** 'should handle agencies with no references': an empty list of
    references gives no record. *)
Example no_references_no_record :
  own_stat (agency_with "no-refs" [] None) = None /\
  collect [agency_with "no-refs" [] None] = [] /\
  averageTitlesPerAgency
    (analyzeAgencyStats [agency_with "no-refs" [] None] None) = Finite 0.
Proof. repeat split. Qed.

(** ** Distinct slugs *)

Lemma distinct_in (l : list jsstring) (x : jsstring) :
  In x (distinct l) <-> In x l.
Proof.
  induction l as [|y l IH]; simpl; [tauto|].
  rewrite filter_In, IH, negb_true_iff, str_eqb_neq.
  destruct (list_eq_dec N.eq_dec y x) as [->|Hne]; [tauto|].
  split; (intros [H|H]; [now left|]); right;
    [tauto | split; [exact H | congruence]].
Qed.

Lemma distinct_nodup (l : list jsstring) : NoDup (distinct l).
Proof.
  induction l as [|y l IH]; simpl; constructor.
  - rewrite filter_In, negb_true_iff, str_eqb_neq. tauto.
  - now apply NoDup_filter.
Qed.

Lemma distinct_length (l : list jsstring) : length (distinct l) <= length l.
Proof.
  induction l as [|y l IH]; simpl; [lia|].
  pose proof (filter_length_le (fun z => negb (str_eqb z y)) (distinct l)).
  lia.
Qed.

Lemma distinct_of_nodup (l : list jsstring) : NoDup l -> distinct l = l.
Proof.
  induction 1 as [|y l Hy Hl IH]; simpl; [reflexivity|].
  rewrite IH. f_equal. apply forallb_filter_id.
  apply forallb_forall. intros z Hz.
  apply negb_true_iff, str_eqb_neq. congruence.
Qed.

Lemma collect_keys (agencies : list Agency) :
  map_keys (collect agencies) =
  distinct (List.map slug (referencing_nodes agencies)).
Proof.
  rewrite collect_forest, stored_keys. cbn [map_keys List.map app].
  unfold referencing_nodes. apply forallb_filter_id.
  apply forallb_forall. reflexivity.
Qed.

Lemma collect_size (agencies : list Agency) :
  length (map_values (collect agencies)) =
  length (distinct (List.map slug (referencing_nodes agencies))).
Proof.
  rewrite <- collect_keys. unfold map_values, map_keys.
  now rewrite !length_map.
Qed.

(** ** Totals of a forest *)

(** C5, as the code has it.  [totalAgencies] is the number of roots;
    [agenciesWithReferences] is the number of records the result map
    holds, one for each distinct slug among the visited nodes (roots and
    descendants) whose set of titles is not empty, hence one for each such
    node when their slugs differ; [totalTitles] is the length of the
    registry, or 50 without one. *)
Theorem forest_totals (agencies : list Agency)
    (titles' : option (list Title)) :
  let r := analyzeAgencyStats agencies titles' in
  let slugs := List.map slug (referencing_nodes agencies) in
  totalAgencies r = length agencies /\
  agenciesWithReferences r = length (distinct slugs) /\
  agenciesWithReferences r <= length (referencing_nodes agencies) /\
  (NoDup slugs ->
   agenciesWithReferences r = length (referencing_nodes agencies)) /\
  totalTitles r =
  match titles' with Some ts => length ts | None => 50 end.
Proof.
  intros r slugs.
  assert (H : agenciesWithReferences r = length (distinct slugs))
    by apply collect_size.
  split; [reflexivity|]. split; [exact H|]. split; [|split].
  - rewrite H. pose proof (distinct_length slugs) as Hle.
    subst slugs. now rewrite length_map in Hle.
  - intros Hnd. rewrite H, (distinct_of_nodup Hnd).
    subst slugs. apply length_map.
  - reflexivity.
Qed.

(** A forest whose slugs differ, the parent and child of the test
    'should handle agencies with children': as many records as nodes with
    references. *)
Lemma forest_totals_witness :
  agenciesWithReferences (analyzeAgencyStats parent_child_forest None) =
  length (referencing_nodes parent_child_forest).
Proof.
  apply (forest_totals parent_child_forest None).
  repeat constructor; simpl; intuition discriminate.
Defined.

(** C5, as the specification has it, fails: two visited nodes with
    references and one slug give one record, not two. *)
Lemma same_slug_counted_once :
  length (referencing_nodes same_slug_forest) = 2 /\
  agenciesWithReferences (analyzeAgencyStats same_slug_forest None) = 1 /\
  agenciesWithReferences (analyzeAgencyStats same_slug_forest None) <>
  length (referencing_nodes same_slug_forest).
Proof. repeat split; vm_compute; discriminate. Qed.

(** ** The average *)

(** C9.  [averageTitlesPerAgency] is a finite number for every forest.  When
    no visited node has a reference it is 0; otherwise
    [agenciesWithReferences] is positive and the average is the sum of
    [titleCount] over the records of the result map, divided by
    [agenciesWithReferences]. *)
Theorem average_defined (agencies : list Agency)
    (titles' : option (list Title)) :
  let r := analyzeAgencyStats agencies titles' in
  let stats := map_values (collect agencies) in
  is_finite (averageTitlesPerAgency r) = true /\
  agenciesWithReferences r = length stats /\
  match referencing_nodes agencies with
  | [] =>
      agenciesWithReferences r = 0 /\ averageTitlesPerAgency r = Finite 0
  | _ :: _ =>
      0 < agenciesWithReferences r /\
      averageTitlesPerAgency r =
      Finite (Z.of_nat (sum_by titleCount stats)
              # Pos.of_nat (agenciesWithReferences r))
  end.
Proof.
  intros r stats.
  assert (Havg : averageTitlesPerAgency r =
                 if 0 <? length stats
                 then div (sum_by titleCount stats) (length stats)
                 else Finite 0) by reflexivity.
  assert (Hn : agenciesWithReferences r = length stats) by reflexivity.
  assert (Hsize : length stats =
                  length (distinct (List.map slug (referencing_nodes agencies))))
    by apply collect_size.
  split; [|split; [exact Hn|]].
  - rewrite Havg. destruct (length stats); reflexivity.
  - rewrite Hn, Havg. destruct (referencing_nodes agencies) as [|a l].
    + cbn in Hsize. rewrite Hsize. split; reflexivity.
    + cbn [List.map distinct length] in Hsize. rewrite Hsize.
      split; [lia | reflexivity].
Qed.

(** ** Two nodes, one slug *)

(** C7.  When two visited nodes share a slug and each produces a record,
    the later one being the last of that slug to produce one, the result
    map holds under the slug the record of the later node, and no other
    record with that slug: the earlier record is gone.  So it is for
    [getAgencyBySlug] and for the [topAgencies] of [analyzeAgencyStats]. *)
Theorem last_write_wins (agencies : list Agency)
    (titles' : option (list Title))
    (pre : list Agency) (n1 : Agency) (mid : list Agency) (n2 : Agency)
    (post : list Agency) (st1 st2 : AgencyStat) :
  forest_nodes agencies = pre ++ n1 :: mid ++ n2 :: post ->
  slug n1 = slug n2 ->
  own_stat n1 = Some st1 ->
  own_stat n2 = Some st2 ->
  (forall n, In n post -> slug n = slug n2 -> own_stat n = None) ->
  map_get str_eqb (slug n2) (collect agencies) = Some st2 /\
  getAgencyBySlug agencies (slug n2) = Some st2 /\
  filter (fun st => str_eqb (s_slug st) (slug n2))
         (map_values (collect agencies)) = [st2] /\
  Forall (fun st => s_slug st = slug n2 -> st = st2)
         (topAgencies (analyzeAgencyStats agencies titles')).
Proof.
  intros Hnodes Hslug Hst1 Hst2 Hpost.
  assert (Hget : map_get str_eqb (slug n2) (collect agencies) = Some st2).
  { rewrite collect_forest, Hnodes.
    rewrite app_comm_cons, app_assoc, fold_left_app. cbn [fold_left].
    rewrite stored_get_other by exact Hpost.
    unfold store at 1. rewrite Hst2.
    apply (map_get_set_same str_eqb str_eqb_eq). }
  assert (Honly : filter (fun st => str_eqb (s_slug st) (slug n2))
                         (map_values (collect agencies)) = [st2]).
  { apply (map_values_of_key str_eqb str_eqb_eq s_slug); [| |exact Hget].
    - rewrite collect_forest. apply stored_nodup. constructor.
    - rewrite collect_forest. apply stored_named. intros k v []. }
  split; [exact Hget|]. split; [exact Hget|]. split; [exact Honly|].
  apply Forall_forall. intros st Hin Hs.
  assert (Hval : In st (map_values (collect agencies))).
  { unfold analyzeAgencyStats in Hin. cbn [topAgencies] in Hin.
    apply in_slice0 in Hin.
    eapply Permutation_in; [apply sort_perm | exact Hin]. }
  assert (Hf : In st (filter (fun st => str_eqb (s_slug st) (slug n2))
                             (map_values (collect agencies)))).
  { apply filter_In. split; [exact Hval | now apply str_eqb_eq]. }
  rewrite Honly in Hf. destruct Hf as [<-|[]]. reflexivity.
Qed.

(** The two roots of [same_slug_forest]: the record of the second, with
    title 10, is the one that stays. *)
Lemma last_write_wins_witness :
  exists st2,
    own_stat (agency_with "a" [10]%Z None) = Some st2 /\
    titles st2 = [10]%Z /\
    getAgencyBySlug same_slug_forest (lit "a") = Some st2.
Proof.
  eexists. split; [reflexivity|]. split; [reflexivity|].
  eapply (last_write_wins same_slug_forest None
            [] (agency_with "a" [5; 6]%Z None)
            [] (agency_with "a" [10]%Z None) []).
  - reflexivity.
  - reflexivity.
  - reflexivity.
  - reflexivity.
  - intros n [].
Defined.

End AgencyStatsFacts.

(* ================================================================== *)
(** * Properties of the retry helper *)

Module RetryFacts.
Import Retry JsFacts.

Lemma calls_cons_call (k : nat) (evs : list Event) :
  calls (ev_call k :: evs) = k :: calls evs.
Proof. reflexivity. Qed.

Lemma calls_between (options : RetryOptions) (k : nat) (e : Error) (ms : Z)
    (evs : list Event) :
  calls ((if onRetry options then [ev_onRetry k e] else [])
         ++ ev_sleep ms :: evs) = calls evs.
Proof. destruct (onRetry options); reflexivity. Qed.

(** The classification of the tests of [isRetryableError]. *)
Example isRetryableError_cases :
  isRetryableError
    (an_Error {| message := lit "fetch failed"; status := None |}) = true /\
  isRetryableError
    (an_Error {| message := lit "connect ECONNREFUSED 127.0.0.1:443";
                 status := None |}) = true /\
  isRetryableError
    (an_Error {| message := lit "ETIMEDOUT"; status := None |}) = true /\
  isRetryableError
    (an_Error {| message := lit "Too Many Requests";
                 status := Some 429%Z |}) = true /\
  isRetryableError
    (an_Error {| message := lit "Bad Gateway"; status := Some 502%Z |}) = true /\
  isRetryableError
    (an_Error {| message := lit "Not Found"; status := Some 404%Z |}) = false /\
  isRetryableError (not_an_Error (lit "not an error")) = false /\
  isRetryableError other_error = false.
Proof. repeat split. Qed.

(** 'should throw error after max attempts': two attempts allowed, two
    calls made, the error thrown. *)
Example persistent_failure :
  retryWithBackoff (T := jsstring) (fun _ => Thrown other_error)
    {| o_maxAttempts := Some 2; o_initialDelay := Some 10%Z;
       o_maxDelay := None; o_factor := None; onRetry := false |} =
  (Thrown (to_Error other_error), [ev_call 1; ev_sleep 10; ev_call 2]).
Proof. reflexivity. Qed.

(** The loop entered at [attempt]: if [fn] fails at every call from
    [attempt] up to [k] excluded, and call [k] succeeds or is the last one
    allowed, the loop makes the calls [attempt .. k] and ends with what call
    [k] did. *)
Lemma attempts_until (T : Type) (fn : nat -> outcome Value T)
    (options : RetryOptions) (k : nat) :
  k <= maxAttempts_of options ->
  (k = maxAttempts_of options \/ exists v, fn k = Returned v) ->
  forall remaining attempt delay lastError,
    attempt + remaining = maxAttempts_of options + 1 ->
    attempt <= k ->
    (forall i, attempt <= i < k -> exists x, fn i = Thrown x) ->
    let '(r, evs) := attempts fn options remaining attempt delay lastError in
    r = settled (fn k) /\ calls evs = seq attempt (k + 1 - attempt).
Proof.
  intros Hk Hend.
  induction remaining as [|remaining IH];
    intros attempt delay lastError Hinv Hle Hfail; [lia|].
  cbn [attempts].
  destruct (Nat.eq_dec attempt k) as [->|Hne].
  - replace (k + 1 - k) with 1 by lia. cbn [seq].
    destruct (fn k) as [v|x] eqn:Hfn; [now split|].
    destruct Hend as [Hlast|[v Hv]]; [|congruence].
    rewrite Hlast, Nat.eqb_refl. now split.
  - destruct (Hfail attempt) as [x Hx]; [lia|]. rewrite Hx.
    assert (Hnot : (attempt =? maxAttempts_of options) = false)
      by (apply Nat.eqb_neq; lia).
    rewrite Hnot.
    specialize (IH (attempt + 1) (delay * factor_of options)%Z
                   (Some (to_Error x))).
    destruct (attempts fn options remaining (attempt + 1) _ _) as [r evs].
    destruct IH as [Hr Hcalls]; [lia | lia | intros i Hi; apply Hfail; lia |].
    split; [exact Hr|].
    rewrite calls_cons_call, calls_between, Hcalls.
    replace (k + 1 - attempt) with (S (k + 1 - (attempt + 1))) by lia.
    cbn [seq]. now rewrite Nat.add_1_r.
Qed.

(** C4, as the code has it.  [retryWithBackoff] asks nothing about the
    error: whatever the failures are, if [fn] fails at every call before
    call [k], and call [k] succeeds or is call number [maxAttempts], then
    [fn] is called [k] times and the caller gets what call [k] did, its
    value or its error. *)
Theorem retries_every_failure (T : Type) (fn : nat -> outcome Value T)
    (options : RetryOptions) (k : nat) :
  1 <= k <= maxAttempts_of options ->
  fails_before fn k ->
  (k = maxAttempts_of options \/ exists v, fn k = Returned v) ->
  fst (retryWithBackoff fn options) = settled (fn k) /\
  calls (snd (retryWithBackoff fn options)) = seq 1 k.
Proof.
  intros Hk Hfail Hend. unfold retryWithBackoff.
  pose proof (@attempts_until T fn options k (proj2 Hk) Hend
                (maxAttempts_of options) 1 (initialDelay_of options) None)
    as H.
  destruct (attempts fn options _ _ _ _) as [r evs].
  destruct H as [Hr Hcalls]; [lia | lia | intros i Hi; apply Hfail; lia |].
  split; [exact Hr|]. cbn [snd]. rewrite Hcalls. f_equal. lia.
Qed.

(** [fails_once] under the default options: the second call is made and
    its value returned. *)
Lemma retries_every_failure_witness :
  fst (retryWithBackoff fails_once no_options) = Returned (lit "success") /\
  calls (snd (retryWithBackoff fails_once no_options)) = [1; 2].
Proof.
  apply (@retries_every_failure jsstring fails_once no_options 2).
  - vm_compute. split; repeat constructor.
  - intros i Hi. assert (i = 1) as -> by lia. now exists other_error.
  - right. now exists (lit "success").
Defined.

(** C4, as the specification has it, fails: the error of the first call
    is not a retryable one, yet a second call is made and the error never
    reaches the caller. *)
Lemma non_retryable_error_retried :
  fails_once 1 = Thrown other_error /\
  isRetryableError other_error = false /\
  retryWithBackoff fails_once no_options =
  (Returned (lit "success"), [ev_call 1; ev_sleep 1000; ev_call 2]).
Proof. repeat split. Qed.

End RetryFacts.

(* ================================================================== *)
(** * More properties of the word-count analysis *)

Module WordCountExtra.
Import WordCount JsFacts WordCountFacts.

(** ** countWords on any string *)

Lemma runs_trimStart (s : jsstring) :
  runs_from true (trimStart s) = runs_from true s.
Proof.
  induction s as [|c s IH]; [reflexivity|].
  simpl trimStart. destruct (is_ws c) eqn:E; [|reflexivity].
  simpl. now rewrite E.
Qed.

Lemma runs_app_ws (s : jsstring) (c : N) : forall b,
  is_ws c = true -> runs_from b (s ++ [c]) = runs_from b s.
Proof.
  induction s as [|d s IH]; intros b Hc; simpl.
  - now rewrite Hc.
  - destruct (is_ws d); now rewrite IH.
Qed.

Lemma runs_trimStart_rev (s : jsstring) : forall b,
  runs_from b (rev (trimStart s)) = runs_from b (rev s).
Proof.
  induction s as [|c s IH]; intros b; [reflexivity|].
  simpl trimStart. destruct (is_ws c) eqn:E; [|reflexivity].
  simpl rev. now rewrite runs_app_ws.
Qed.

Lemma runs_trim (s : jsstring) : word_runs (trim s) = word_runs s.
Proof.
  unfold word_runs, trim, trimEnd.
  rewrite runs_trimStart_rev, rev_involutive. apply runs_trimStart.
Qed.

Lemma split_trim_runs (s : jsstring) :
  length (filter truthy (split_ws (trim s))) = word_runs s.
Proof. now rewrite split_ws_runs, runs_trim. Qed.

(** [countWords] counts the maximal runs of non-white-space characters of
    its argument, whatever white space the argument begins or ends with;
    the empty string has none. *)
Theorem countWords_runs (text : jsstring) :
  countWords text = word_runs text /\
  countWords (trim text) = countWords text.
Proof.
  assert (H : forall s, countWords s = word_runs s).
  { intros s. unfold countWords. destruct s as [|c s]; [reflexivity|].
    cbn [truthy negb]. apply split_trim_runs. }
  split; [apply H|]. now rewrite !H, runs_trim.
Qed.

Lemma runs_app_sep (s t : jsstring) (c : N) : forall b,
  is_ws c = true ->
  runs_from b (s ++ c :: t) = runs_from b s + runs_from true t.
Proof.
  induction s as [|d s IH]; intros b Hc; simpl.
  - now rewrite Hc.
  - destruct (is_ws d); rewrite IH by exact Hc; lia.
Qed.

(** The space [getNodeContent] puts between [content] and [text] keeps
    their words apart: a node's word count is the number of words of its
    [content] plus the number of words of its [text]. *)
Theorem own_words_split (node : StructureNode) :
  own_words node =
  countWords (match content node with Some c => c | None => [] end) +
  countWords (match text node with Some t => t | None => [] end).
Proof.
  assert (H : forall s, countWords s = word_runs s).
  { intros s. unfold countWords. destruct s as [|c s]; [reflexivity|].
    cbn [truthy negb]. apply split_trim_runs. }
  unfold own_words, element_of. cbn [wordCount].
  rewrite !H, getNodeContent_joined, runs_trim.
  unfold joined_fields, word_runs.
  destruct node as [id ty lb c t ch]; cbn [content text].
  destruct t as [t|].
  - cbn [lit app]. apply runs_app_sep. reflexivity.
  - rewrite app_nil_r. change (runs_from true []) with 0.
    now rewrite Nat.add_0_r.
Qed.

(** ** The fields of the result *)

Lemma analyze_fields (structure : TitleStructure) :
  let r := analyzeWordCount structure in
  totalElements r = length (records structure) /\
  topElements r =
  slice0 10 (sort (fun a b => (Z.of_nat (wordCount b)
                               - Z.of_nat (wordCount a))%Z)
                  (records structure)) /\
  sections r = filter (fun el => str_eqb (el_type el) (lit "section"))
                      (records structure).
Proof.
  unfold analyzeWordCount, records.
  destruct (processNode (as_node structure) _) as [n w]. repeat split.
Qed.

(** [totalElements] is the number of nodes of the tree, the root included:
    every node is visited once, and [topElements] and [sections] are taken
    among that many records. *)
Theorem totalElements_nodes (structure : TitleStructure) :
  let r := analyzeWordCount structure in
  totalElements r = length (preorder (as_node structure)) /\
  1 <= totalElements r /\
  length (topElements r) <= totalElements r /\
  length (sections r) < totalElements r.
Proof.
  intros r. destruct (analyze_fields structure) as (Hels & Htop & Hsec).
  fold r in Hels, Htop, Hsec.
  split; [now rewrite Hels, records_preorder, length_map|].
  split; [|split].
  - rewrite Hels, records_preorder, length_map. simpl. lia.
  - rewrite Htop, Hels. unfold slice0. rewrite length_firstn, sort_length.
    lia.
  - rewrite Hsec, Hels, records_preorder. cbn [as_node preorder List.map].
    cbn [filter element_of el_type type]. cbn [length].
    change (str_eqb (type_name ty_title) (lit "section")) with false.
    cbv iota.
    pose proof (filter_length_le
                  (fun el => str_eqb (el_type el) (lit "section"))
                  (List.map element_of
                     match ts_children structure with
                     | Some cs => flat_map preorder cs
                     | None => []
                     end)). lia.
Qed.

Lemma filter_map_comm (A B : Type) (f : A -> B) (p : B -> bool)
    (l : list A) :
  filter p (List.map f l) = List.map f (filter (fun x => p (f x)) l).
Proof.
  induction l as [|x l IH]; simpl; [reflexivity|].
  destruct (p (f x)); simpl; now rewrite IH.
Qed.

(** [sections] holds the records of the section nodes, in the order of the
    walk, and nothing else. *)
Theorem sections_of_section_nodes (structure : TitleStructure) :
  sections (analyzeWordCount structure) =
  List.map element_of (filter isSection (preorder (as_node structure))).
Proof.
  destruct (analyze_fields structure) as (_ & _ & Hsec).
  rewrite Hsec, records_preorder, filter_map_comm. reflexivity.
Qed.

(** ** The table against the other fields *)

Lemma counts_words (nodes : list StructureNode) : forall m,
  sum_by hc_totalWords (map_values (fold_left tally nodes m)) =
  sum_by hc_totalWords (map_values m) + sum_by own_words nodes.
Proof.
  induction nodes as [|n nodes IH]; intros m; cbn [fold_left].
  - unfold sum_by at 3. simpl. lia.
  - rewrite IH, sum_by_cons. unfold tally, bump.
    pose proof (map_set_sum str_eqb hc_totalWords (type_name (type n))
      {| hc_count :=
           hc_count match map_get str_eqb (type_name (type n)) m with
                    | Some e => e
                    | None => {| hc_count := 0; hc_totalWords := 0 |}
                    end + 1;
         hc_totalWords :=
           hc_totalWords match map_get str_eqb (type_name (type n)) m with
                         | Some e => e
                         | None => {| hc_count := 0; hc_totalWords := 0 |}
                         end + own_words n |} m) as H.
    destruct (map_get str_eqb (type_name (type n)) m);
      cbn [hc_count hc_totalWords] in *; lia.
Qed.

(** The table adds up to the totals: the [totalWords] of its records sum to
    the [totalWords] of the result, and their [count]s to [totalElements]. *)
Theorem byHierarchy_totals (structure : TitleStructure) :
  let r := analyzeWordCount structure in
  sum_by h_totalWords (byHierarchy r) = totalWords r /\
  sum_by h_count (byHierarchy r) = totalElements r.
Proof.
  intros r. subst r.
  set (nodes := preorder (as_node structure)).
  set (cmp := fun a b => localeCompare (h_type a) (h_type b)).
  pose proof (sort_perm cmp (List.map to_hierarchy (fold_left tally nodes [])))
    as Hperm.
  rewrite analyze_byHierarchy. fold nodes. fold cmp. split.
  - rewrite (sum_by_perm h_totalWords Hperm), sum_by_map.
    rewrite analyze_totalWords. fold nodes.
    pose proof (counts_words nodes []) as Hsum.
    unfold map_values in Hsum. rewrite sum_by_map in Hsum.
    change (sum_by hc_totalWords (List.map snd [])) with 0 in Hsum.
    rewrite Nat.add_0_l in Hsum. rewrite <- Hsum.
    apply sum_by_ext. now intros [k d].
  - rewrite (sum_by_perm h_count Hperm), sum_by_map.
    destruct (analyze_fields structure) as (Hn & _).
    rewrite Hn, records_preorder, length_map. fold nodes.
    pose proof (counts_sum nodes []) as Hsum.
    unfold map_values in Hsum. rewrite sum_by_map in Hsum.
    change (sum_by hc_count (List.map snd [])) with 0 in Hsum.
    rewrite Nat.add_0_l in Hsum. rewrite <- Hsum.
    apply sum_by_ext. now intros [k d].
Qed.

(** The entry of the sections in the table counts the records of
    [sections] and adds up their words; there is no such entry exactly when
    [sections] is empty. *)
Theorem sections_table_entry (structure : TitleStructure) :
  let r := analyzeWordCount structure in
  match find (fun h => str_eqb (h_type h) (lit "section")) (byHierarchy r) with
  | Some h =>
      h_count h = length (sections r) /\
      h_totalWords h = sum_by wordCount (sections r)
  | None => sections r = []
  end.
Proof.
  intros r. subst r.
  set (nodes := preorder (as_node structure)).
  set (cmp := fun a b => localeCompare (h_type a) (h_type b)).
  destruct (analyze_fields structure) as (_ & _ & Hsec).
  rewrite Hsec, records_preorder, filter_map_comm. fold nodes.
  change (filter (fun x => str_eqb (el_type (element_of x)) (lit "section"))
                 nodes)
    with (nodes_of_type (lit "section") nodes).
  rewrite analyze_byHierarchy. fold nodes. fold cmp.
  pose proof (sort_perm cmp (List.map to_hierarchy (fold_left tally nodes [])))
    as Hperm.
  destruct (find _ (sort cmp _)) as [h|] eqn:Hfind.
  - apply find_some in Hfind. destruct Hfind as [Hin Hty].
    apply str_eqb_eq in Hty.
    apply (Permutation_in _ Hperm) in Hin. apply in_map_iff in Hin.
    destruct Hin as [[k d] [<- Hin]]. cbn [to_hierarchy h_type] in Hty.
    subst k. apply table_entry in Hin. destruct Hin as [-> _].
    cbn [to_hierarchy h_count h_totalWords hc_count hc_totalWords].
    now rewrite length_map, sum_by_map.
  - destruct (nodes_of_type (lit "section") nodes) as [|n ns] eqn:E;
      [reflexivity|].
    exfalso.
    assert (Hn : In n (nodes_of_type (lit "section") nodes))
      by (rewrite E; now left).
    apply filter_In in Hn. destruct Hn as [Hn Hty].
    apply str_eqb_eq in Hty.
    assert (Hkey : In (lit "section") (map_keys (fold_left tally nodes [])))
      by (apply table_key; now exists n).
    rewrite <- to_hierarchy_types in Hkey.
    apply in_map_iff in Hkey. destruct Hkey as [h [Hh Hin]].
    apply (Permutation_in _ (Permutation_sym Hperm)) in Hin.
    apply (find_none _ _ Hfind) in Hin.
    rewrite Hh in Hin. discriminate Hin.
Qed.

(** ** The summary of a batch *)

(** The fold of [longestTitle] and [shortestTitle], for any strict ranking
    [better] of word totals: started on an accumulator that is the first
    best of what was read, it ends on the first best of the whole. *)
Lemma pick_first_best (better : nat -> nat -> bool) :
  (forall a b c, better a b = true -> better b c = true -> better a c = true) ->
  (forall a b c, better a b = true -> better c b = false -> better a c = true) ->
  forall rest front m back,
    Forall (fun x => better (totalWords m) (totalWords x) = true) front ->
    Forall (fun x => better (totalWords x) (totalWords m) = false) back ->
    exists r front' back',
      reduce_pick better rest (Some m) = Returned (Some r) /\
      front ++ m :: back ++ rest = front' ++ r :: back' /\
      Forall (fun x => better (totalWords r) (totalWords x) = true) front' /\
      Forall (fun x => better (totalWords x) (totalWords r) = false) back'.
Proof.
  intros Htrans Hneg.
  induction rest as [|x rest IH]; intros front m back Hfront Hback.
  - exists m, front, back. rewrite app_nil_r. now repeat split.
  - cbn [reduce_pick].
    destruct (better (totalWords x) (totalWords m)) eqn:E.
    + destruct (IH (front ++ m :: back) x []) as (r & f & b & Hr & Heq & Hf & Hb).
      * apply Forall_app. split; [|constructor].
        -- eapply Forall_impl; [|exact Hfront].
           intros y Hy. now apply Htrans with (b := totalWords m).
        -- exact E.
        -- eapply Forall_impl; [|exact Hback].
           intros y Hy. now apply Hneg with (b := totalWords m).
      * constructor.
      * exists r, f, b. repeat split; try assumption.
        rewrite <- Heq. cbn [app]. now rewrite <- app_assoc.
    + destruct (IH front m (back ++ [x])) as (r & f & b & Hr & Heq & Hf & Hb).
      * exact Hfront.
      * apply Forall_app. split; [exact Hback | now constructor].
      * exists r, f, b. repeat split; try assumption.
        rewrite <- Heq. now rewrite <- app_assoc.
Qed.

Lemma summary_parts (x : WordCountResult) (rest : list WordCountResult) :
  exists hi lo,
    getWordCountSummary (x :: rest) =
    Returned {| titleCount := length (x :: rest);
                s_totalWords := sum_by totalWords (x :: rest);
                s_totalElements := sum_by totalElements (x :: rest);
                averageWordsPerTitle :=
                  div (sum_by totalWords (x :: rest)) (length (x :: rest));
                longestTitle := Some hi;
                shortestTitle := Some lo |} /\
    first_best (fun a b => totalWords b < totalWords a) (x :: rest) hi /\
    first_best (fun a b => totalWords a < totalWords b) (x :: rest) lo.
Proof.
  destruct (@pick_first_best (fun a b => b <? a)) with
      (rest := rest) (front := @nil WordCountResult) (m := x)
      (back := @nil WordCountResult)
    as (hi & f1 & b1 & Hhi & Heq1 & Hf1 & Hb1); try constructor.
  { intros a b c H1 H2. apply Nat.ltb_lt in H1, H2. apply Nat.ltb_lt. lia. }
  { intros a b c H1 H2. apply Nat.ltb_lt in H1. apply Nat.ltb_ge in H2.
    apply Nat.ltb_lt. lia. }
  destruct (@pick_first_best (fun a b => a <? b)) with
      (rest := rest) (front := @nil WordCountResult) (m := x)
      (back := @nil WordCountResult)
    as (lo & f2 & b2 & Hlo & Heq2 & Hf2 & Hb2); try constructor.
  { intros a b c H1 H2. apply Nat.ltb_lt in H1, H2. apply Nat.ltb_lt. lia. }
  { intros a b c H1 H2. apply Nat.ltb_lt in H1. apply Nat.ltb_ge in H2.
    apply Nat.ltb_lt. lia. }
  exists hi, lo. split; [|split].
  - unfold getWordCountSummary. cbn [nth_error reduce_pick].
    rewrite !Nat.ltb_irrefl, Hhi, Hlo. reflexivity.
  - exists f1, b1. cbn [app] in Heq1. split; [exact Heq1|]. split.
    + eapply Forall_impl; [|exact Hf1]. intros y Hy. now apply Nat.ltb_lt.
    + eapply Forall_impl; [|exact Hb1]. intros y Hy.
      apply Nat.ltb_ge in Hy. lia.
  - exists f2, b2. cbn [app] in Heq2. split; [exact Heq2|]. split.
    + eapply Forall_impl; [|exact Hf2]. intros y Hy. now apply Nat.ltb_lt.
    + eapply Forall_impl; [|exact Hb2]. intros y Hy.
      apply Nat.ltb_ge in Hy. lia.
Qed.

(** Of a batch that is not empty, [longestTitle] is the first result with
    the greatest [totalWords] and [shortestTitle] the first with the least:
    ties go to the result that comes first in the batch. *)
Theorem summary_extremes (x : WordCountResult) (rest : list WordCountResult) :
  exists s hi lo,
    getWordCountSummary (x :: rest) = Returned s /\
    longestTitle s = Some hi /\
    shortestTitle s = Some lo /\
    first_best (fun a b => totalWords b < totalWords a) (x :: rest) hi /\
    first_best (fun a b => totalWords a < totalWords b) (x :: rest) lo.
Proof.
  destruct (summary_parts x rest) as (hi & lo & Hs & Hhi & Hlo).
  eexists. exists hi, lo. split; [exact Hs|]. now repeat split.
Qed.

Lemma first_best_in (beats : WordCountResult -> WordCountResult -> Prop)
    (results : list WordCountResult) (r : WordCountResult) :
  first_best beats results r -> In r results.
Proof.
  intros (f & b & -> & _). apply in_or_app. right. now left.
Qed.

Lemma sum_by_bounds (A : Type) (f : A -> nat) (l : list A) (lo hi : nat) :
  Forall (fun x => lo <= f x <= hi) l ->
  lo * length l <= sum_by f l <= hi * length l.
Proof.
  induction 1 as [|x l Hx Hl IH]; [unfold sum_by; simpl; lia|].
  rewrite sum_by_cons. cbn [length]. lia.
Qed.

(** The totals of a summary are sums over the batch, and the average,
    their quotient, lies between the shortest and the longest title:
    [shortest * n <= totalWords <= longest * n]. *)
Theorem summary_average_between (x : WordCountResult)
    (rest : list WordCountResult) :
  exists s hi lo,
    getWordCountSummary (x :: rest) = Returned s /\
    longestTitle s = Some hi /\ shortestTitle s = Some lo /\
    s_totalWords s = sum_by totalWords (x :: rest) /\
    s_totalElements s = sum_by totalElements (x :: rest) /\
    averageWordsPerTitle s =
    Finite (Z.of_nat (s_totalWords s) # Pos.of_nat (titleCount s)) /\
    totalWords lo * titleCount s <= s_totalWords s /\
    s_totalWords s <= totalWords hi * titleCount s.
Proof.
  destruct (summary_parts x rest) as (hi & lo & Hs & Hhi & Hlo).
  eexists. exists hi, lo. split; [exact Hs|].
  cbn [longestTitle shortestTitle s_totalWords s_totalElements
       averageWordsPerTitle titleCount].
  do 5 (split; [reflexivity|]).
  apply sum_by_bounds.
  destruct Hhi as (f1 & b1 & Heq1 & Hf1 & Hb1).
  destruct Hlo as (f2 & b2 & Heq2 & Hf2 & Hb2).
  apply Forall_forall. intros y Hy. split.
  - rewrite Heq2 in Hy. apply in_app_or in Hy.
    rewrite Forall_forall in Hf2, Hb2.
    destruct Hy as [Hy|[<-|Hy]]; [specialize (Hf2 y Hy) | | specialize (Hb2 y Hy)];
      lia.
  - rewrite Heq1 in Hy. apply in_app_or in Hy.
    rewrite Forall_forall in Hf1, Hb1.
    destruct Hy as [Hy|[<-|Hy]]; [specialize (Hf1 y Hy) | | specialize (Hb1 y Hy)];
      lia.
Qed.

(** The summary of the analyses of a batch of trees counts the nodes of all
    the trees and the words of all the nodes. *)
Theorem summary_of_analyses (structures : list TitleStructure) :
  exists s,
    getWordCountSummary (analyzeMultipleTitles structures) = Returned s /\
    titleCount s = length structures /\
    s_totalElements s = length (batch_nodes structures) /\
    s_totalWords s = sum_by own_words (batch_nodes structures).
Proof.
  assert (Hel : sum_by totalElements (analyzeMultipleTitles structures) =
                length (batch_nodes structures)).
  { unfold analyzeMultipleTitles, batch_nodes.
    induction structures as [|t ts IH]; [reflexivity|].
    cbn [List.map flat_map]. rewrite sum_by_cons, length_app, IH.
    destruct (analyze_fields t) as (Hn & _).
    now rewrite Hn, records_preorder, length_map. }
  assert (Hw : sum_by totalWords (analyzeMultipleTitles structures) =
               sum_by own_words (batch_nodes structures)).
  { clear Hel. unfold analyzeMultipleTitles, batch_nodes.
    induction structures as [|t ts IH]; [reflexivity|].
    cbn [List.map flat_map].
    now rewrite sum_by_cons, sum_by_app, IH, analyze_totalWords. }
  destruct structures as [|t ts].
  - eexists. split; [reflexivity|]. now repeat split.
  - cbn [analyzeMultipleTitles List.map].
    destruct (summary_parts (analyzeWordCount t)
                (List.map (fun structure => analyzeWordCount structure) ts))
      as (hi & lo & Hs & _ & _).
    eexists. split; [exact Hs|].
    cbn [titleCount s_totalElements s_totalWords].
    split; [cbn [length]; now rewrite length_map|].
    split; [exact Hel | exact Hw].
Qed.

End WordCountExtra.

(* ================================================================== *)
(** * More properties of the agency statistics *)

Module AgencyStatsExtra.
Import AgencyStats JsFacts AgencyStatsFacts.

(** ** Set *)

Section SetFacts.
Variable K : Type.
Variable eqb : K -> K -> bool.
Hypothesis eqb_eq : forall a b, eqb a b = true <-> a = b.

Lemma set_has_in (k : K) (s : JsSet K) : set_has eqb k s = true <-> In k s.
Proof.
  induction s as [|x s IH]; simpl; [split; [discriminate | easy]|].
  rewrite orb_true_iff, IH, eqb_eq. split; intros [H|H]; auto.
Qed.

Lemma set_add_in (k x : K) (s : JsSet K) :
  In x (set_add eqb k s) <-> x = k \/ In x s.
Proof.
  unfold set_add. destruct (set_has eqb k s) eqn:E.
  - apply set_has_in in E. split; [auto|]. intros [->|H]; assumption.
  - rewrite in_app_iff. simpl. intuition auto.
Qed.

Lemma set_add_nodup (k : K) (s : JsSet K) :
  NoDup s -> NoDup (set_add eqb k s).
Proof.
  intros Hs. unfold set_add. destruct (set_has eqb k s) eqn:E; [exact Hs|].
  assert (Hk : ~ In k s).
  { intros H. apply set_has_in in H. congruence. }
  apply NoDup_rev in Hs. rewrite <- (rev_involutive (s ++ [k])).
  apply NoDup_rev. rewrite rev_app_distr. simpl. constructor; [|exact Hs].
  now rewrite <- in_rev.
Qed.

Lemma set_add_length (k : K) (s : JsSet K) :
  length s <= length (set_add eqb k s) <= S (length s).
Proof.
  unfold set_add. destruct (set_has eqb k s); [lia|].
  rewrite length_app. simpl. lia.
Qed.
End SetFacts.

Lemma Z_eqb_eq (a b : Z) : Z.eqb a b = true <-> a = b.
Proof. apply Z.eqb_eq. Qed.

(** ** The sets of one node *)

Lemma ref_sets_spec (refs : list CfrReference) :
  let '(ts, cs, ps) := ref_sets refs in
  ts = fold_left (fun s ref => set_add Z.eqb (title ref) s) refs [] /\
  length cs <= length (filter (fun r => truthy_opt (chapter r)) refs) /\
  length ps <= length (filter (fun r => truthy_opt (part r)) refs).
Proof.
  unfold ref_sets.
  match goal with
  | |- context [fold_left ?F refs ([], [], [])] =>
      assert (G : forall ts cs ps,
                 let '(ts', cs', ps') := fold_left F refs (ts, cs, ps) in
                 ts' = fold_left (fun s ref => set_add Z.eqb (title ref) s)
                                 refs ts /\
                 length cs' <=
                 length cs
                 + length (filter (fun r => truthy_opt (chapter r)) refs) /\
                 length ps' <=
                 length ps
                 + length (filter (fun r => truthy_opt (part r)) refs))
  end.
  { induction refs as [|r refs IH]; intros ts cs ps.
    - cbn. repeat split; lia.
    - cbn [fold_left filter].
      match goal with
      | |- context [fold_left ?F refs (?a, ?b, ?c)] =>
          specialize (IH a b c); destruct (fold_left F refs (a, b, c))
            as [[ts' cs'] ps']
      end.
      destruct IH as (Ht & Hc & Hp). split; [exact Ht|].
      split.
      + destruct (chapter r) as [c|]; cbn [truthy_opt].
        * destruct (truthy c); cbn [length].
          -- pose proof (set_add_length str_eqb (ref_key (title r) c) cs).
             lia.
          -- lia.
        * lia.
      + destruct (part r) as [q|]; cbn [truthy_opt].
        * destruct (truthy q); cbn [length].
          -- pose proof (set_add_length str_eqb (ref_key (title r) q) ps).
             lia.
          -- lia.
        * lia. }
  exact (G [] [] []).
Qed.

Lemma titles_fold (refs : list CfrReference) : forall ts,
  NoDup ts ->
  let ts' := fold_left (fun s ref => set_add Z.eqb (title ref) s) refs ts in
  NoDup ts' /\
  (forall t, In t ts' <-> In t ts \/ exists ref, In ref refs /\ title ref = t) /\
  length ts <= length ts' <= length ts + length refs.
Proof.
  induction refs as [|r refs IH]; intros ts Hts; cbn [fold_left].
  - split; [exact Hts|]. split; [|simpl; lia].
    intros t. split; [auto|]. intros [H|[ref [[] _]]]. exact H.
  - destruct (IH (set_add Z.eqb (title r) ts)) as (Hnd & Hin & Hlen).
    { now apply (set_add_nodup Z.eqb Z_eqb_eq). }
    split; [exact Hnd|]. split.
    + intros t. rewrite Hin, (set_add_in Z.eqb Z_eqb_eq). split.
      * intros [[->|H]|[ref [Href Ht]]].
        -- right. exists r. split; [now left | reflexivity].
        -- now left.
        -- right. exists ref. split; [now right | exact Ht].
      * intros [H|[ref [[<-|Href] Ht]]].
        -- left. now right.
        -- left. left. now symmetry.
        -- right. now exists ref.
    + pose proof (set_add_length Z.eqb (title r) ts). cbn [length]. lia.
Qed.

Lemma sorted_strict (l : list Z) :
  StronglySorted (fun a b => (a <= b)%Z) l -> NoDup l ->
  StronglySorted Z.lt l.
Proof.
  induction 1 as [|x l Hs IH Hx]; intros Hnd; constructor.
  - apply IH. now inversion Hnd.
  - inversion Hnd as [|? ? Hnotin _]; subst.
    rewrite Forall_forall in *. intros y Hy.
    specialize (Hx y Hy). assert (x <> y) by congruence. lia.
Qed.

(** What [own_stat] computes, in terms of the three sets. *)
Lemma own_stat_shape (agency : Agency) :
  let ts := fold_left (fun s ref => set_add Z.eqb (title ref) s)
                      (references agency) [] in
  match own_stat agency with
  | None => ts = []
  | Some st =>
      ts <> [] /\
      s_name st = name agency /\ s_slug st = slug agency /\
      shortName st = short_name agency /\
      titleCount st = length ts /\
      titles st = sort (fun a b => (a - b)%Z) ts /\
      chapterCount st <=
      length (filter (fun r => truthy_opt (chapter r)) (references agency)) /\
      partCount st <=
      length (filter (fun r => truthy_opt (part r)) (references agency))
  end.
Proof.
  unfold own_stat, references.
  destruct (cfr_references agency) as [refs|].
  - pose proof (ref_sets_spec refs) as H.
    destruct (ref_sets refs) as [[ts cs] ps].
    destruct H as (-> & Hc & Hp). cbv zeta.
    match goal with
    | |- context [fold_left ?F refs []] =>
        destruct (fold_left F refs []) as [|t ts] eqn:E
    end; [reflexivity|].
    cbn [length Nat.ltb Nat.leb].
    repeat split; try reflexivity; try discriminate; simpl in *; lia.
  - reflexivity.
Qed.

(** A node produces a record exactly when it has a reference.  The record
    carries the node's names; its [titles] are the titles of the node's
    references, each once, in increasing order, and [titleCount] is their
    number. *)
Theorem own_stat_titles (agency : Agency) :
  match own_stat agency with
  | None => references agency = []
  | Some st =>
      references agency <> [] /\
      s_name st = name agency /\ s_slug st = slug agency /\
      shortName st = short_name agency /\
      StronglySorted Z.lt (titles st) /\
      (forall t, In t (titles st) <->
                 exists ref, In ref (references agency) /\ title ref = t) /\
      titleCount st = length (titles st)
  end.
Proof.
  pose proof (own_stat_shape agency) as H. cbv zeta in H.
  destruct (titles_fold (references agency) (@NoDup_nil Z))
    as (Hnd & Hin & Hlen). cbv zeta in Hnd, Hin, Hlen.
  set (ts := fold_left (fun s ref => set_add Z.eqb (title ref) s)
                       (references agency) []) in *.
  destruct (own_stat agency) as [st|].
  - destruct H as (Hne & Hn & Hs & Hsn & Htc & Ht & _).
    pose proof (sort_perm (fun a b => (a - b)%Z) ts) as Hperm.
    split.
    { intros Hrefs. apply Hne. subst ts. now rewrite Hrefs. }
    do 3 (split; [assumption|]). split; [|split].
    + rewrite Ht. apply sorted_strict.
      * apply sorted_weaken
          with (R := precedes (fun a b => (a - b)%Z)).
        -- unfold precedes. intros a b. lia.
        -- apply sort_sorted; unfold precedes; intros; lia.
      * eapply Permutation_NoDup; [symmetry; exact Hperm | exact Hnd].
    + intros t. rewrite Ht. split.
      * intros Hi. apply (Permutation_in _ Hperm) in Hi.
        apply Hin in Hi. destruct Hi as [[]|Hi]. exact Hi.
      * intros Hi. apply (Permutation_in _ (Permutation_sym Hperm)).
        apply Hin. now right.
    + now rewrite Ht, sort_length.
  - destruct (references agency) as [|r refs]; [reflexivity|].
    exfalso. assert (Hr : In (title r) ts).
    { apply Hin. right. exists r. split; [now left | reflexivity]. }
    rewrite H in Hr. exact Hr.
Qed.

(** The counts of a record are bounded by the references they come from:
    at least one title and at most one per reference, at most one chapter
    per reference that names a chapter, at most one part per reference
    that names a part. *)
Theorem own_stat_counts (agency : Agency) :
  match own_stat agency with
  | None => True
  | Some st =>
      1 <= titleCount st <= length (references agency) /\
      chapterCount st <=
      length (filter (fun r => truthy_opt (chapter r)) (references agency)) /\
      partCount st <=
      length (filter (fun r => truthy_opt (part r)) (references agency))
  end.
Proof.
  pose proof (own_stat_shape agency) as H. cbv zeta in H.
  destruct (titles_fold (references agency) (@NoDup_nil Z))
    as (_ & _ & Hlen). cbv zeta in Hlen. cbn [length] in Hlen.
  set (ts := fold_left (fun s ref => set_add Z.eqb (title ref) s)
                       (references agency) []) in *.
  destruct (own_stat agency) as [st|]; [|exact I].
  destruct H as (Hne & _ & _ & _ & Htc & _ & Hc & Hp).
  split; [|split; assumption].
  rewrite Htc. destruct ts; [congruence | simpl in *; lia].
Qed.

(** ** Looking a slug up *)

Lemma map_get_some (k : jsstring) (v : AgencyStat) (m : Results) :
  map_get str_eqb k m = Some v -> In (k, v) m.
Proof.
  induction m as [|[k' v'] m IH]; simpl; [discriminate|].
  destruct (str_eqb k k') eqn:E; [|auto].
  apply str_eqb_eq in E. subst. intros [= ->]. now left.
Qed.

(** Every entry of the map after the walk was in the map before it or is
    the record of a visited node, under that node's slug. *)
Lemma stored_from (nodes : list Agency) : forall m k v,
  In (k, v) (fold_left store nodes m) ->
  In (k, v) m \/ exists n, In n nodes /\ slug n = k /\ own_stat n = Some v.
Proof.
  induction nodes as [|a nodes IH]; intros m k v Hin; [now left|].
  cbn [fold_left] in Hin. apply IH in Hin.
  destruct Hin as [Hin|(n & Hn & Hk & Hv)].
  - unfold store in Hin. destruct (own_stat a) as [st|] eqn:Hst; [|now left].
    apply (map_set_in str_eqb str_eqb_eq) in Hin.
    destruct Hin as [[-> ->]|Hin]; [|now left].
    right. exists a. repeat split; [now left | exact Hst].
  - right. exists n. repeat split; [now right | exact Hk | exact Hv].
Qed.

Lemma collect_nodup (agencies : list Agency) :
  NoDup (map_keys (collect agencies)).
Proof. rewrite collect_forest. apply stored_nodup. constructor. Qed.

Lemma collect_named (agencies : list Agency) (k : jsstring) (v : AgencyStat) :
  In (k, v) (collect agencies) -> s_slug v = k.
Proof.
  rewrite collect_forest. apply stored_named. intros k' v' [].
Qed.

Lemma collect_from (agencies : list Agency) (k : jsstring) (v : AgencyStat) :
  In (k, v) (collect agencies) ->
  exists n, In n (forest_nodes agencies) /\ slug n = k /\ own_stat n = Some v.
Proof.
  rewrite collect_forest. intros H. apply stored_from in H.
  destruct H as [[]|H]. exact H.
Qed.

(** A record is among the values of the result map exactly when it is
    what the map holds under the record's own slug. *)
Lemma collect_value (agencies : list Agency) (st : AgencyStat) :
  In st (map_values (collect agencies)) <->
  map_get str_eqb (s_slug st) (collect agencies) = Some st.
Proof.
  unfold map_values. split.
  - intros H. apply in_map_iff in H. destruct H as [[k v] [Hv Hin]].
    cbn in Hv. subst v. rewrite (collect_named _ _ _ Hin).
    apply (map_get_in str_eqb str_eqb_eq); [apply collect_nodup | exact Hin].
  - intros H. apply map_get_some in H.
    change st with (snd (s_slug st, st)). now apply in_map.
Qed.

(** [getAgencyBySlug] answers [null] exactly when no visited node with
    references has the slug asked for.  A record it returns carries that
    slug and is the record of a visited node with that slug. *)
Theorem getAgencyBySlug_found (agencies : list Agency) (s : jsstring) :
  match getAgencyBySlug agencies s with
  | None =>
      filter (fun n => str_eqb (slug n) s) (referencing_nodes agencies) = []
  | Some st =>
      s_slug st = s /\
      exists n, In n (forest_nodes agencies) /\ slug n = s /\
                own_stat n = Some st
  end.
Proof.
  unfold getAgencyBySlug.
  destruct (map_get str_eqb s (collect agencies)) as [st|] eqn:Hget.
  - apply map_get_some in Hget. split.
    + now apply collect_named with (agencies := agencies).
    + now apply collect_from.
  - apply (map_get_none str_eqb str_eqb_eq) in Hget.
    rewrite collect_keys, distinct_in in Hget.
    destruct (filter _ (referencing_nodes agencies)) as [|n ns] eqn:E;
      [reflexivity|].
    exfalso. apply Hget.
    assert (Hn : In n (filter (fun n => str_eqb (slug n) s)
                              (referencing_nodes agencies)))
      by (rewrite E; now left).
    apply filter_In in Hn. destruct Hn as [Hn Hs].
    apply str_eqb_eq in Hs. subst s. now apply in_map.
Qed.

(** ** The records when slugs are not reused *)

Lemma map_set_fresh (k : jsstring) (v : AgencyStat) (m : Results) :
  ~ In k (map_keys m) -> map_set str_eqb k v m = m ++ [(k, v)].
Proof.
  induction m as [|[k' v'] m IH]; simpl; intros Hk; [reflexivity|].
  destruct (str_eqb k k') eqn:E.
  - apply str_eqb_eq in E. subst. tauto.
  - rewrite IH by tauto. reflexivity.
Qed.

Lemma stored_fresh (nodes : list Agency) : forall m,
  NoDup (map_keys m ++ List.map slug (filter has_references nodes)) ->
  map_values (fold_left store nodes m) = map_values m ++ stats_of nodes.
Proof.
  unfold map_values, stats_of.
  induction nodes as [|a nodes IH]; intros m Hnd; cbn [fold_left flat_map].
  - now rewrite app_nil_r.
  - cbn [filter] in Hnd.
    change (has_references a)
      with (match own_stat a with Some _ => true | None => false end) in Hnd.
    unfold store. destruct (own_stat a) as [st|] eqn:Hst.
    + cbn [List.map] in Hnd.
      assert (Hk : ~ In (slug a) (map_keys m)).
      { apply NoDup_remove_2 in Hnd. intros H. apply Hnd.
        apply in_or_app. now left. }
      rewrite (map_set_fresh _ st _ Hk). rewrite IH.
      * rewrite map_app. cbn [List.map snd]. now rewrite <- app_assoc.
      * unfold map_keys in *. rewrite map_app. cbn [List.map fst].
        now rewrite <- app_assoc.
    + now apply IH.
Qed.

(** When the visited nodes with references have pairwise different slugs,
    the records of the result are the records of these nodes, one each, in
    the order of the walk, and each node with references is found under
    its slug. *)
Theorem stats_in_visit_order (agencies : list Agency) :
  NoDup (List.map slug (referencing_nodes agencies)) ->
  map_values (collect agencies) = stats_of (forest_nodes agencies) /\
  Forall (fun n => getAgencyBySlug agencies (slug n) = own_stat n)
         (referencing_nodes agencies).
Proof.
  intros Hnd.
  assert (Hvals : map_values (collect agencies) =
                  stats_of (forest_nodes agencies)).
  { rewrite collect_forest.
    rewrite stored_fresh by exact Hnd. reflexivity. }
  split; [exact Hvals|].
  apply Forall_forall. intros n Hn. unfold getAgencyBySlug.
  unfold referencing_nodes in Hn. apply filter_In in Hn.
  destruct Hn as [Hn Href]. unfold has_references in Href.
  destruct (own_stat n) as [st|] eqn:Hst; [|discriminate].
  rewrite <- (own_stat_slug _ Hst). apply collect_value.
  rewrite Hvals. unfold stats_of. apply in_flat_map.
  exists n. split; [exact Hn|]. rewrite Hst. now left.
Qed.

(** The parent and child of [parent_child_forest] have different slugs:
    two records, the parent's first. *)
Lemma stats_in_visit_order_witness :
  List.map s_slug (map_values (collect parent_child_forest)) =
  [lit "a"; lit "b"].
Proof.
  rewrite (proj1 (stats_in_visit_order parent_child_forest
                    ltac:(repeat constructor; simpl; intuition discriminate))).
  reflexivity.
Defined.

(** ** The agencies of a title *)

Lemma lists_title_in (t : Z) (st : AgencyStat) :
  lists_title t st = true <-> In t (titles st).
Proof.
  unfold lists_title. rewrite existsb_exists. split.
  - intros [x [Hx Ht]]. apply Z.eqb_eq in Ht. now subst.
  - intros H. exists t. split; [exact H | apply Z.eqb_refl].
Qed.

Lemma values_slugs_nodup (agencies : list Agency) :
  NoDup (List.map s_slug (map_values (collect agencies))).
Proof.
  replace (List.map s_slug (map_values (collect agencies)))
    with (map_keys (collect agencies)); [apply collect_nodup|].
  unfold map_keys, map_values. rewrite map_map.
  apply map_ext_in. intros [k v] Hin. cbn. symmetry.
  now apply collect_named with (agencies := agencies).
Qed.

Lemma nodup_map_filter (A B : Type) (f : A -> B) (p : A -> bool)
    (l : list A) :
  NoDup (List.map f l) -> NoDup (List.map f (filter p l)).
Proof.
  induction l as [|x l IH]; simpl; intros H; [constructor|].
  inversion H as [|? ? Hx Hl]; subst.
  destruct (p x); [|now apply IH]. simpl. constructor; [|now apply IH].
  intros Hin. apply Hx. apply in_map_iff in Hin.
  destruct Hin as [y [Hy Hin]]. apply filter_In in Hin.
  apply in_map_iff. exists y. tauto.
Qed.

(** [getAgenciesForTitle] returns the records that [getAgencyBySlug] finds
    and that list the title, and no other; their slugs are pairwise
    different; each comes from a visited node that has a reference to the
    title.  It returns nothing when no node refers to the title. *)
Theorem getAgenciesForTitle_found (agencies : list Agency) (t : Z) :
  let found := getAgenciesForTitle agencies t in
  (forall st, In st found <->
              getAgencyBySlug agencies (s_slug st) = Some st /\
              In t (titles st)) /\
  NoDup (List.map s_slug found) /\
  Forall (fun st =>
            exists n ref,
              In n (forest_nodes agencies) /\ own_stat n = Some st /\
              In ref (references n) /\ title ref = t) found.
Proof.
  intros found. subst found. unfold getAgenciesForTitle.
  split; [|split].
  - intros st. rewrite filter_In, collect_value, lists_title_in.
    reflexivity.
  - apply nodup_map_filter, values_slugs_nodup.
  - apply Forall_forall. intros st Hin. apply filter_In in Hin.
    destruct Hin as [Hval Ht]. apply lists_title_in in Ht.
    apply collect_value, map_get_some, collect_from in Hval.
    destruct Hval as (n & Hn & _ & Hst).
    pose proof (own_stat_shape n) as Hshape. cbv zeta in Hshape.
    destruct (titles_fold (references n) (@NoDup_nil Z)) as (_ & Hin & _).
    cbv zeta in Hin. rewrite Hst in Hshape.
    destruct Hshape as (_ & _ & _ & _ & _ & Htitles & _).
    rewrite Htitles in Ht.
    apply (Permutation_in _ (sort_perm _ _)) in Ht.
    apply Hin in Ht. destruct Ht as [[]|[ref [Href Hr]]].
    exists n, ref. now repeat split.
Qed.

(** ** The agencies with most titles *)

(** [topAgencies] is the first ten of the records of the result ranked by
    decreasing [titleCount], records of equal [titleCount] keeping the
    order of the result map: it has [min 10 agenciesWithReferences]
    records, and no record left out has more titles than one that is
    kept. *)
Theorem topAgencies_ranked (agencies : list Agency)
    (titles' : option (list Title)) :
  let r := analyzeAgencyStats agencies titles' in
  let stats := map_values (collect agencies) in
  exists ranked,
    Permutation ranked stats /\
    StronglySorted (fun a b => titleCount b <= titleCount a) ranked /\
    (forall c, filter (fun st => titleCount st =? c) ranked =
               filter (fun st => titleCount st =? c) stats) /\
    topAgencies r = firstn 10 ranked /\
    length (topAgencies r) = Nat.min 10 (agenciesWithReferences r) /\
    Forall (fun x => Forall (fun y => titleCount y <= titleCount x)
                            (skipn 10 ranked)) (topAgencies r).
Proof.
  intros r stats.
  set (cmp := fun a b : AgencyStat =>
                (Z.of_nat (titleCount b) - Z.of_nat (titleCount a))%Z).
  exists (sort cmp stats).
  assert (Htop : topAgencies r = firstn 10 (sort cmp stats)) by reflexivity.
  assert (Hsorted : StronglySorted (fun a b => titleCount b <= titleCount a)
                                   (sort cmp stats)).
  { apply sorted_weaken with (R := precedes cmp).
    - unfold precedes, cmp. intros a b. lia.
    - apply sort_sorted; unfold precedes, cmp; intros; lia. }
  split; [apply sort_perm|]. split; [exact Hsorted|].
  split; [|split; [exact Htop|split]].
  - intros c. apply sort_filter. unfold precedes, cmp. intros a b Ha Hb.
    apply Nat.eqb_eq in Ha, Hb. lia.
  - rewrite Htop, length_firstn, sort_length. reflexivity.
  - rewrite Htop. apply Forall_forall. intros x Hx.
    apply Forall_forall. intros y Hy.
    rewrite <- (firstn_skipn 10 (sort cmp stats)) in Hsorted.
    exact (sorted_app_le (R := fun a b => titleCount b <= titleCount a)
                         _ _ Hsorted x y Hx Hy).
Qed.

(** ** The agencies of each title *)

Lemma set_add_idem (k : jsstring) (s : JsSet jsstring) :
  set_add str_eqb k (set_add str_eqb k s) = set_add str_eqb k s.
Proof.
  unfold set_add at 1.
  assert (H : set_has str_eqb k (set_add str_eqb k s) = true).
  { apply (set_has_in str_eqb str_eqb_eq).
    apply (set_add_in str_eqb str_eqb_eq). now left. }
  now rewrite H.
Qed.

Lemma add_get_same (s : jsstring) (m : TitleAgencies) (t : Z) :
  map_get Z.eqb t (add_title_agency s m t) =
  Some (set_add str_eqb s (or_empty (map_get Z.eqb t m))).
Proof.
  unfold add_title_agency.
  destruct (map_get Z.eqb t m) as [x|] eqn:E.
  - rewrite E. apply (map_get_set_same Z.eqb Z_eqb_eq).
  - rewrite (map_get_set_same Z.eqb Z_eqb_eq).
    rewrite (map_get_set_same Z.eqb Z_eqb_eq). reflexivity.
Qed.

Lemma add_get_other (s : jsstring) (m : TitleAgencies) (t t' : Z) :
  t <> t' ->
  map_get Z.eqb t (add_title_agency s m t') = map_get Z.eqb t m.
Proof.
  intros Hne. unfold add_title_agency.
  destruct (map_get Z.eqb t' m) as [x|] eqn:E.
  - rewrite E. now apply (map_get_set_other Z.eqb Z_eqb_eq).
  - rewrite (map_get_set_same Z.eqb Z_eqb_eq).
    rewrite !(map_get_set_other Z.eqb Z_eqb_eq) by exact Hne. reflexivity.
Qed.

Lemma add_keys_nodup (s : jsstring) (m : TitleAgencies) (t : Z) :
  NoDup (map_keys m) -> NoDup (map_keys (add_title_agency s m t)).
Proof.
  intros H. unfold add_title_agency.
  destruct (map_get Z.eqb t m) as [x|] eqn:E.
  - rewrite E. now apply (map_keys_set_nodup Z.eqb Z_eqb_eq).
  - rewrite (map_get_set_same Z.eqb Z_eqb_eq).
    now do 2 apply (map_keys_set_nodup Z.eqb Z_eqb_eq).
Qed.

(** One record: its slug joins the set of each of its titles. *)
Lemma add_titles_get (s : jsstring) (ts : list Z) (t : Z) : forall m,
  map_get Z.eqb t (fold_left (add_title_agency s) ts m) =
  if existsb (fun x => Z.eqb x t) ts
  then Some (set_add str_eqb s (or_empty (map_get Z.eqb t m)))
  else map_get Z.eqb t m.
Proof.
  induction ts as [|t' ts IH]; intros m; [reflexivity|].
  cbn [fold_left existsb]. rewrite IH.
  destruct (Z.eqb t' t) eqn:E.
  - apply Z.eqb_eq in E. subst t'. rewrite add_get_same. cbn [orb or_empty].
    destruct (existsb _ ts); [now rewrite set_add_idem | reflexivity].
  - apply Z.eqb_neq in E.
    rewrite add_get_other by congruence. reflexivity.
Qed.

Lemma add_titles_nodup (s : jsstring) (ts : list Z) : forall m,
  NoDup (map_keys m) ->
  NoDup (map_keys (fold_left (add_title_agency s) ts m)).
Proof.
  induction ts as [|t' ts IH]; intros m H; [exact H|].
  cbn [fold_left]. now apply IH, add_keys_nodup.
Qed.

(** All the records: the set of a title holds the slugs of the records
    that list it, added in the order of the records. *)
Lemma title_agencies_get (stats : list AgencyStat) (t : Z) : forall m,
  map_get Z.eqb t
    (fold_left (fun m stat =>
                  fold_left (add_title_agency (s_slug stat)) (titles stat) m)
               stats m) =
  match slugs_listing t stats with
  | [] => map_get Z.eqb t m
  | _ :: _ =>
      Some (fold_left (fun acc s => set_add str_eqb s acc)
                      (slugs_listing t stats)
                      (or_empty (map_get Z.eqb t m)))
  end.
Proof.
  unfold slugs_listing.
  induction stats as [|st stats IH]; intros m; [reflexivity|].
  cbn [fold_left filter]. rewrite IH, add_titles_get.
  change (existsb (fun x => Z.eqb x t) (titles st)) with (lists_title t st).
  destruct (lists_title t st); cbn [List.map fold_left or_empty].
  - destruct (List.map s_slug (filter (lists_title t) stats)); reflexivity.
  - reflexivity.
Qed.

Lemma title_agencies_nodup (stats : list AgencyStat) : forall m,
  NoDup (map_keys m) ->
  NoDup (map_keys
           (fold_left (fun m stat =>
                         fold_left (add_title_agency (s_slug stat))
                                   (titles stat) m)
                      stats m)).
Proof.
  induction stats as [|st stats IH]; intros m H; [exact H|].
  cbn [fold_left]. now apply IH, add_titles_nodup.
Qed.

Lemma set_adds_fresh (l : list jsstring) : forall acc,
  NoDup (acc ++ l) ->
  fold_left (fun acc s => set_add str_eqb s acc) l acc = acc ++ l.
Proof.
  induction l as [|x l IH]; intros acc H; cbn [fold_left].
  - now rewrite app_nil_r.
  - assert (Hx : set_has str_eqb x acc = false).
    { destruct (set_has str_eqb x acc) eqn:E; [|reflexivity].
      apply (set_has_in str_eqb str_eqb_eq) in E.
      apply NoDup_remove_2 in H. exfalso. apply H.
      apply in_or_app. now left. }
    unfold set_add at 2. rewrite Hx. rewrite IH.
    + now rewrite <- app_assoc.
    + now rewrite <- app_assoc.
Qed.

Lemma analyze_distribution (agencies : list Agency)
    (titles' : option (list Title)) :
  titleDistribution (analyzeAgencyStats agencies titles') =
  sort (fun a b => (Z.of_nat (agencyCount b) - Z.of_nat (agencyCount a))%Z)
       (List.map (to_distribution titles')
                 (title_agencies (map_values (collect agencies)))).
Proof. reflexivity. Qed.

(** The entries of the title map after the fold, for the records of a
    result. *)
Lemma title_agencies_entry (agencies : list Agency) (t : Z)
    (set : JsSet jsstring) :
  let stats := map_values (collect agencies) in
  In (t, set) (title_agencies stats) ->
  set = slugs_listing t stats /\ set <> [].
Proof.
  intros stats Hin. unfold title_agencies in Hin.
  apply (map_get_in Z.eqb Z_eqb_eq) in Hin;
    [|apply title_agencies_nodup; constructor].
  rewrite title_agencies_get in Hin. cbn [map_get or_empty] in Hin.
  assert (Hnd : NoDup (slugs_listing t stats)).
  { unfold slugs_listing. apply nodup_map_filter, values_slugs_nodup. }
  destruct (slugs_listing t stats) as [|x l] eqn:E; [discriminate|].
  rewrite (set_adds_fresh (x :: l) [] Hnd) in Hin.
  injection Hin as <-. split; [reflexivity | discriminate].
Qed.

Lemma title_agencies_key (agencies : list Agency) (t : Z) :
  let stats := map_values (collect agencies) in
  In t (map_keys (title_agencies stats)) <->
  exists st, In st stats /\ In t (titles st).
Proof.
  intros stats.
  set (M := title_agencies stats).
  pose proof (title_agencies_get stats t []) as Hget.
  change (fold_left _ stats []) with M in Hget.
  cbn [map_get or_empty] in Hget.
  pose proof (map_get_none Z.eqb Z_eqb_eq t M) as Hnone.
  split.
  - intros Hin. unfold slugs_listing in Hget.
    destruct (filter (lists_title t) stats) as [|st l] eqn:E.
    + exfalso. now apply Hnone.
    + exists st. assert (Hst : In st (filter (lists_title t) stats))
        by (rewrite E; now left).
      apply filter_In in Hst. destruct Hst as [Hst Ht].
      now apply lists_title_in in Ht.
  - intros [st [Hst Ht]].
    assert (Hf : In (s_slug st) (slugs_listing t stats)).
    { unfold slugs_listing. apply in_map, filter_In.
      split; [exact Hst | now apply lists_title_in]. }
    destruct (slugs_listing t stats) as [|x l]; [easy|].
    destruct (in_dec Z.eq_dec t (map_keys M)) as [H|H]; [exact H|].
    apply Hnone in H. congruence.
Qed.

Lemma distribution_numbers (titles' : option (list Title))
    (m : TitleAgencies) :
  List.map titleNumber (List.map (to_distribution titles') m) = map_keys m.
Proof.
  unfold map_keys. rewrite map_map. apply map_ext. now intros [k d].
Qed.

(** [titleDistribution] has one entry for each title that some record of
    the result lists, and no other.  The [agencies] of an entry are the
    slugs of the records that list its title, each once, in the order of
    the records; [agencyCount] is their number and is at least 1.  The
    entries come by decreasing [agencyCount]. *)
Theorem titleDistribution_entries (agencies : list Agency)
    (titles' : option (list Title)) :
  let stats := map_values (collect agencies) in
  let dist := titleDistribution (analyzeAgencyStats agencies titles') in
  NoDup (List.map titleNumber dist) /\
  (forall t, In t (List.map titleNumber dist) <->
             exists st, In st stats /\ In t (titles st)) /\
  Forall (fun d =>
            AgencyStats.agencies d = slugs_listing (titleNumber d) stats /\
            NoDup (AgencyStats.agencies d) /\
            agencyCount d = length (AgencyStats.agencies d) /\
            1 <= agencyCount d) dist /\
  StronglySorted (fun a b => agencyCount b <= agencyCount a) dist.
Proof.
  intros stats dist. subst dist. rewrite analyze_distribution. fold stats.
  set (M := title_agencies stats).
  set (cmp := fun a b : TitleDistribution =>
                (Z.of_nat (agencyCount b) - Z.of_nat (agencyCount a))%Z).
  pose proof (sort_perm cmp (List.map (to_distribution titles') M)) as Hperm.
  assert (Hnums : Permutation
                    (List.map titleNumber
                       (sort cmp (List.map (to_distribution titles') M)))
                    (map_keys M)).
  { rewrite <- (distribution_numbers titles'). now apply Permutation_map. }
  split; [|split; [|split]].
  - eapply Permutation_NoDup; [symmetry; exact Hnums|].
    apply title_agencies_nodup. constructor.
  - intros t. pose proof (title_agencies_key agencies t) as Hkey.
    cbv zeta in Hkey. fold stats in Hkey. fold M in Hkey. rewrite <- Hkey.
    split; intros H.
    + eapply Permutation_in; [exact Hnums | exact H].
    + eapply Permutation_in; [symmetry; exact Hnums | exact H].
  - eapply Permutation_Forall; [symmetry; exact Hperm|].
    apply Forall_forall. intros d Hd. apply in_map_iff in Hd.
    destruct Hd as [[t set] [<- Hin]].
    apply title_agencies_entry in Hin. fold stats in Hin.
    destruct Hin as [-> Hne].
    cbn [to_distribution titleNumber AgencyStats.agencies agencyCount].
    split; [reflexivity|]. split; [|split; [reflexivity|]].
    + unfold slugs_listing. apply nodup_map_filter, values_slugs_nodup.
    + destruct (slugs_listing t stats); [congruence | simpl; lia].
  - apply sorted_weaken with (R := precedes cmp).
    + unfold precedes, cmp. intros a b. lia.
    + apply sort_sorted; unfold precedes, cmp; intros; lia.
Qed.

(** ** Counting references by title and by agency *)

Lemma sum_by_ext_in (A : Type) (f g : A -> nat) (l : list A) :
  (forall x, In x l -> f x = g x) -> sum_by f l = sum_by g l.
Proof.
  induction l as [|x l IH]; intros H; [reflexivity|].
  rewrite !sum_by_cons, (H x (or_introl eq_refl)). f_equal.
  apply IH. intros y Hy. apply H. now right.
Qed.

Lemma sum_by_plus (A : Type) (f g : A -> nat) (l : list A) :
  sum_by (fun x => f x + g x) l = sum_by f l + sum_by g l.
Proof.
  induction l as [|x l IH]; [reflexivity|].
  rewrite !sum_by_cons, IH. lia.
Qed.

Lemma sum_by_zero (A : Type) (l : list A) : sum_by (fun _ => 0) l = 0.
Proof.
  induction l as [|x l IH]; [reflexivity|]. now rewrite sum_by_cons, IH.
Qed.

Lemma filter_length_sum (A : Type) (p : A -> bool) (l : list A) :
  length (filter p l) = sum_by (fun x => if p x then 1 else 0) l.
Proof.
  induction l as [|x l IH]; [reflexivity|].
  rewrite sum_by_cons. simpl. destruct (p x); simpl; now rewrite IH.
Qed.

(** A sum over pairs may be taken rows first or columns first. *)
Lemma sum_by_swap (A B : Type) (f : A -> B -> nat) (l : list A)
    (m : list B) :
  sum_by (fun a => sum_by (fun b => f a b) m) l =
  sum_by (fun b => sum_by (fun a => f a b) l) m.
Proof.
  induction l as [|a l IH].
  - cbn. symmetry. apply sum_by_zero.
  - rewrite sum_by_cons, IH. rewrite <- sum_by_plus.
    apply sum_by_ext. intros b. now rewrite sum_by_cons.
Qed.

(** A record of the result lists each of its titles once and counts
    them. *)
Lemma stored_stat_titles (agencies : list Agency) (st : AgencyStat) :
  In st (map_values (collect agencies)) ->
  NoDup (titles st) /\ titleCount st = length (titles st).
Proof.
  intros Hin. apply collect_value, map_get_some, collect_from in Hin.
  destruct Hin as (n & _ & _ & Hst).
  pose proof (own_stat_shape n) as Hshape. cbv zeta in Hshape.
  destruct (titles_fold (references n) (@NoDup_nil Z)) as (Hnd & _ & _).
  cbv zeta in Hnd. rewrite Hst in Hshape.
  destruct Hshape as (_ & _ & _ & _ & Htc & Htitles & _).
  rewrite Htitles. split.
  - eapply Permutation_NoDup; [symmetry; apply sort_perm | exact Hnd].
  - now rewrite sort_length.
Qed.

(** Every reference to a title is counted once by title and once by
    agency: the [agencyCount]s of [titleDistribution] add up to the sum of
    the [titleCount]s of the records, the numerator of
    [averageTitlesPerAgency]. *)
Theorem references_counted_twice (agencies : list Agency)
    (titles' : option (list Title)) :
  let r := analyzeAgencyStats agencies titles' in
  sum_by agencyCount (titleDistribution r) =
  sum_by titleCount (map_values (collect agencies)).
Proof.
  intros r. subst r. rewrite analyze_distribution.
  set (stats := map_values (collect agencies)).
  set (M := title_agencies stats).
  rewrite (sum_by_perm agencyCount (sort_perm _ _)), sum_by_map.
  assert (Hkeys : NoDup (map_keys M))
    by (apply title_agencies_nodup; constructor).
  (* by title: the number of records that list it *)
  transitivity (sum_by (fun t => length (filter (lists_title t) stats))
                       (map_keys M)).
  { unfold map_keys. rewrite sum_by_map. apply sum_by_ext_in.
    intros [t set] Hin. cbn [to_distribution agencyCount fst].
    apply title_agencies_entry in Hin. fold stats in Hin.
    destruct Hin as [-> _]. unfold slugs_listing. apply length_map. }
  (* rows and columns *)
  transitivity (sum_by (fun st => length (filter (fun t => lists_title t st)
                                                 (map_keys M))) stats).
  { rewrite (sum_by_ext _ _ _ (fun t => filter_length_sum (lists_title t) stats)).
    rewrite sum_by_swap. apply sum_by_ext. intros st.
    symmetry. apply filter_length_sum. }
  (* by agency: the number of its titles *)
  apply sum_by_ext_in. intros st Hst.
  destruct (stored_stat_titles agencies st Hst) as [Hnd ->].
  apply Permutation_length, NoDup_Permutation.
  - now apply NoDup_filter.
  - exact Hnd.
  - intros t. rewrite filter_In, lists_title_in. split; [tauto|].
    intros Ht. split; [|exact Ht].
    apply (title_agencies_key agencies t). now exists st.
Qed.

(** ** The names of the titles *)

(** The name of an entry of [titleDistribution] is never empty: it is the
    name of a title of the registry with the entry's number, or
    ["Title n"]; without a registry it is always ["Title n"]. *)
Theorem titleDistribution_names (agencies : list Agency)
    (titles' : option (list Title)) :
  Forall (fun d =>
            d_titleName d <> [] /\
            match titles' with
            | None =>
                d_titleName d = lit "Title " ++ string_of_Z (titleNumber d)
            | Some ts =>
                d_titleName d = lit "Title " ++ string_of_Z (titleNumber d) \/
                exists t, In t ts /\ number t = titleNumber d /\
                          t_name t = d_titleName d
            end)
         (titleDistribution (analyzeAgencyStats agencies titles')).
Proof.
  rewrite analyze_distribution.
  eapply Permutation_Forall; [symmetry; apply sort_perm|].
  apply Forall_forall. intros d Hd. apply in_map_iff in Hd.
  destruct Hd as [[n set] [<- _]].
  cbn [to_distribution d_titleName titleNumber].
  destruct titles' as [ts|].
  - destruct (find (fun t => Z.eqb (number t) n) ts) as [t|] eqn:Hfind.
    + apply find_some in Hfind. destruct Hfind as [Hin Hn].
      apply Z.eqb_eq in Hn.
      destruct (t_name t) as [|c nm] eqn:Hname; cbn [truthy].
      * split; [discriminate | now left].
      * split; [discriminate|]. right. exists t. now rewrite Hname.
    + split; [discriminate | now left].
  - split; [discriminate | reflexivity].
Qed.

End AgencyStatsExtra.

(* ================================================================== *)
(** * More properties of the retry helper *)

Module RetryExtra.
Import Retry JsFacts RetryFacts.

Lemma sleeps_round (options : RetryOptions) (k : nat) (e : Error) (ms : Z)
    (evs : list Event) :
  sleeps (ev_call k
          :: (if onRetry options then [ev_onRetry k e] else [])
          ++ ev_sleep ms :: evs) = ms :: sleeps evs.
Proof. destruct (onRetry options); reflexivity. Qed.

Lemma notices_round (options : RetryOptions) (k : nat) (e : Error) (ms : Z)
    (evs : list Event) :
  notices (ev_call k
           :: (if onRetry options then [ev_onRetry k e] else [])
           ++ ev_sleep ms :: evs) =
  (if onRetry options then [(k, e)] else []) ++ notices evs.
Proof. destruct (onRetry options); reflexivity. Qed.

(** The loop entered at [attempt] with [delay], under the invariant
    [attempt + remaining = maxAttempts + 1] and with an attempt left: it
    stops at some call [k], the first to succeed or the last allowed; all
    that it did is determined by [k]. *)
Lemma attempts_trace (T : Type) (fn : nat -> outcome Value T)
    (options : RetryOptions) :
  forall remaining attempt delay lastError,
    attempt + remaining = maxAttempts_of options + 1 ->
    1 <= remaining ->
    exists k,
      attempt <= k <= maxAttempts_of options /\
      (forall i, attempt <= i < k -> exists x, fn i = Thrown x) /\
      (k = maxAttempts_of options \/ exists v, fn k = Returned v) /\
      let '(r, evs) := attempts fn options remaining attempt delay lastError in
      r = settled (fn k) /\
      calls evs = seq attempt (k + 1 - attempt) /\
      sleeps evs =
      List.map (fun i => Z.min (delay * factor_of options ^ Z.of_nat i)
                               (maxDelay_of options))
               (seq 0 (k - attempt)) /\
      notices evs =
      if onRetry options
      then flat_map (notice fn) (seq attempt (k - attempt))
      else [].
Proof.
  induction remaining as [|remaining IH];
    intros attempt delay lastError Hinv Hpos; [lia|].
  cbn [attempts].
  destruct (fn attempt) as [v|x] eqn:Hfn.
  - exists attempt. split; [lia|]. split; [intros i Hi; lia|].
    split; [right; now exists v|].
    rewrite Hfn. replace (attempt + 1 - attempt) with 1 by lia.
    rewrite Nat.sub_diag. cbn. destruct (onRetry options); now repeat split.
  - destruct (attempt =? maxAttempts_of options) eqn:E.
    + apply Nat.eqb_eq in E. exists attempt.
      split; [lia|]. split; [intros i Hi; lia|]. split; [now left|].
      rewrite Hfn. replace (attempt + 1 - attempt) with 1 by lia.
      rewrite Nat.sub_diag. cbn. destruct (onRetry options); now repeat split.
    + apply Nat.eqb_neq in E.
      destruct (IH (attempt + 1) (delay * factor_of options)%Z
                   (Some (to_Error x))) as (k & Hk & Hfail & Hend & Htrace);
        [lia | lia |].
      exists k. split; [lia|]. split.
      { intros i Hi. destruct (Nat.eq_dec i attempt) as [->|Hne].
        - now exists x.
        - apply Hfail. lia. }
      split; [exact Hend|].
      destruct (attempts fn options remaining (attempt + 1) _ _) as [r evs].
      destruct Htrace as (Hr & Hcalls & Hsleeps & Hnotices).
      split; [exact Hr|]. split; [|split].
      * rewrite calls_cons_call, calls_between, Hcalls.
        replace (k + 1 - attempt) with (S (k + 1 - (attempt + 1))) by lia.
        cbn [seq]. now rewrite Nat.add_1_r.
      * rewrite sleeps_round, Hsleeps.
        replace (k - attempt) with (S (k - (attempt + 1))) by lia.
        cbn [seq List.map]. f_equal.
        -- cbn. now rewrite Z.mul_1_r.
        -- rewrite <- seq_shift, map_map. apply map_ext. intros i.
           rewrite Nat2Z.inj_succ, Z.pow_succ_r by lia.
           now rewrite Z.mul_assoc.
      * rewrite notices_round, Hnotices.
        replace (k - attempt) with (S (k - (attempt + 1))) by lia.
        cbn [seq flat_map]. unfold notice at 2. rewrite Hfn.
        rewrite Nat.add_1_r.
        destruct (onRetry options); reflexivity.
Qed.

(** [retryWithBackoff] makes at least one and at most [maxAttempts] calls
    of [fn], numbered from 1, and stops at the first that succeeds or at
    call number [maxAttempts]; all the calls before the last failed, and
    the caller gets what the last call did.  With [maxAttempts] 0 there is
    no call, and the error 'Retry failed with unknown error' is thrown. *)
Theorem retry_bounded (T : Type) (fn : nat -> outcome Value T)
    (options : RetryOptions) :
  let '(r, evs) := retryWithBackoff fn options in
  match maxAttempts_of options with
  | O => evs = [] /\ r = Thrown unknown_error
  | S _ =>
      exists k,
        1 <= k <= maxAttempts_of options /\
        calls evs = seq 1 k /\
        fails_before fn k /\
        (k = maxAttempts_of options \/ exists v, fn k = Returned v) /\
        r = settled (fn k)
  end.
Proof.
  unfold retryWithBackoff.
  destruct (maxAttempts_of options) as [|n] eqn:Hmax; [now split|].
  destruct (@attempts_trace T fn options (S n) 1 (initialDelay_of options)
              None) as (k & Hk & Hfail & Hend & Htrace);
    [rewrite Hmax; lia | lia |].
  rewrite Hmax in *.
  destruct (attempts fn options (S n) 1 _ None) as [r evs].
  destruct Htrace as (Hr & Hcalls & _ & _).
  exists k. split; [lia|]. split.
  - rewrite Hcalls. f_equal. lia.
  - split; [|split; [exact Hend | exact Hr]].
    intros i Hi. apply Hfail. lia.
Qed.

(** Between two calls [retryWithBackoff] waits once, so one time less than
    it calls; wait number [i + 1] lasts [initialDelay * factor ^ i], but
    no more than [maxDelay]. *)
Theorem backoff_schedule (T : Type) (fn : nat -> outcome Value T)
    (options : RetryOptions) :
  let evs := snd (retryWithBackoff fn options) in
  sleeps evs = List.map (wait options) (seq 0 (length (calls evs) - 1)) /\
  Forall (fun ms => (ms <= maxDelay_of options)%Z) (sleeps evs) /\
  length (sleeps evs) = length (calls evs) - 1.
Proof.
  intros evs.
  assert (H : sleeps evs =
              List.map (wait options) (seq 0 (length (calls evs) - 1))).
  { subst evs. unfold retryWithBackoff.
    destruct (maxAttempts_of options) as [|n] eqn:Hmax; [reflexivity|].
    destruct (@attempts_trace T fn options (S n) 1 (initialDelay_of options)
                None) as (k & Hk & _ & _ & Htrace);
      [rewrite Hmax; lia | lia |].
    destruct (attempts fn options (S n) 1 _ None) as [r evs].
    destruct Htrace as (_ & Hcalls & Hsleeps & _). cbn [snd].
    rewrite Hsleeps, Hcalls, length_seq.
    replace (k + 1 - 1 - 1) with (k - 1) by lia. reflexivity. }
  split; [exact H|]. split.
  - rewrite H. apply Forall_forall. intros ms Hms.
    apply in_map_iff in Hms. destruct Hms as [i [<- _]].
    unfold wait. apply Z.le_min_r.
  - now rewrite H, length_map, length_seq.
Qed.

(** When [onRetry] is given it is called once for every failed call that
    is followed by another, in order, with the number of the call and its
    error; when it is not given, never. *)
Theorem onRetry_notices (T : Type) (fn : nat -> outcome Value T)
    (options : RetryOptions) :
  let evs := snd (retryWithBackoff fn options) in
  notices evs =
  (if onRetry options
   then flat_map (notice fn) (seq 1 (length (calls evs) - 1))
   else []) /\
  length (notices evs) =
  if onRetry options then length (calls evs) - 1 else 0.
Proof.
  intros evs. subst evs. unfold retryWithBackoff.
  destruct (maxAttempts_of options) as [|n] eqn:Hmax.
  - cbn. destruct (onRetry options); now split.
  - destruct (@attempts_trace T fn options (S n) 1 (initialDelay_of options)
                None) as (k & Hk & Hfail & _ & Htrace);
      [rewrite Hmax; lia | lia |].
    destruct (attempts fn options (S n) 1 _ None) as [r evs].
    destruct Htrace as (_ & Hcalls & _ & Hnotices). cbn [snd].
    rewrite Hnotices, Hcalls, length_seq.
    replace (k + 1 - 1 - 1) with (k - 1) by lia.
    split; [reflexivity|].
    destruct (onRetry options); [|reflexivity].
    assert (Hlen : forall m a, (forall i, a <= i < a + m ->
                                          exists x, fn i = Thrown x) ->
                               length (flat_map (notice fn) (seq a m)) = m).
    { induction m as [|m IHm]; intros a Ha; [reflexivity|].
      cbn [seq flat_map]. rewrite length_app, IHm.
      - unfold notice. destruct (Ha a) as [x Hx]; [lia|].
        now rewrite Hx.
      - intros i Hi. apply Ha. lia. }
    apply Hlen. intros i Hi. apply Hfail. lia.
Qed.

(** ** isRetryableError *)

Lemma starts_with_app (needle s : jsstring) :
  starts_with needle s = true <-> exists back, s = needle ++ back.
Proof.
  revert s. induction needle as [|a needle IH]; intros s.
  - split; [intros _; now exists s | reflexivity].
  - destruct s as [|b s]; cbn [starts_with].
    + split; [discriminate | intros [back H]; discriminate H].
    + rewrite andb_true_iff, N.eqb_eq, IH. split.
      * intros [-> [back ->]]. now exists back.
      * intros [back H]. injection H as -> ->. split; [reflexivity|].
        now exists back.
Qed.

Lemma includes_occurs (s needle : jsstring) :
  includes s needle = true <-> occurs_in needle s.
Proof.
  unfold occurs_in. induction s as [|c s IH]; cbn [includes].
  - rewrite orb_false_r, starts_with_app. split.
    + intros [back H]. now exists [], back.
    + intros [front [back H]].
      destruct front; [now exists back | discriminate H].
  - rewrite orb_true_iff, starts_with_app, IH. split.
    + intros [[back H]|[front [back H]]].
      * now exists [], back.
      * exists (c :: front), back. now rewrite H.
    + intros [front [back H]]. destruct front as [|d front].
      * left. now exists back.
      * right. injection H as -> H. now exists front, back.
Qed.

(** [isRetryableError] says yes exactly to an [Error] whose message
    contains one of the four marks of a network failure, or whose [status]
    is 429 or from 500 to 599; never to a value that is not an [Error]. *)
Theorem isRetryableError_iff (error : Value) :
  isRetryableError error = true <->
  exists e,
    error = an_Error e /\
    ((exists mark, In mark network_marks /\ occurs_in mark (message e)) \/
     (exists st, status e = Some st /\
                 (st = 429 \/ 500 <= st < 600)%Z)).
Proof.
  destruct error as [e|shown]; cbn [isRetryableError].
  - assert (Hmarks :
      includes (message e) (lit "fetch failed")
      || includes (message e) (lit "ECONNREFUSED")
      || includes (message e) (lit "ETIMEDOUT")
      || includes (message e) (lit "ENOTFOUND") = true <->
      exists mark, In mark network_marks /\ occurs_in mark (message e)).
    { rewrite !orb_true_iff, !includes_occurs. unfold network_marks.
      split.
      - intros [[[H|H]|H]|H]; eexists; (split; [|exact H]); simpl; auto.
      - intros [mark [Hin H]]. simpl in Hin.
        destruct Hin as [<-|[<-|[<-|[<-|[]]]]]; auto. }
    destruct (includes (message e) (lit "fetch failed")
              || includes (message e) (lit "ECONNREFUSED")
              || includes (message e) (lit "ETIMEDOUT")
              || includes (message e) (lit "ENOTFOUND")) eqn:E.
    + split; [|reflexivity]. intros _. exists e. split; [reflexivity|].
      left. now apply Hmarks.
    + split.
      * intros H. exists e. split; [reflexivity|]. right.
        destruct (status e) as [st|]; [|discriminate].
        exists st. split; [reflexivity|].
        apply orb_true_iff in H. destruct H as [H|H].
        -- left. now apply Z.eqb_eq.
        -- right. apply andb_true_iff in H. destruct H as [H1 H2].
           apply Z.leb_le in H1. apply Z.ltb_lt in H2. lia.
      * intros [e' [[= <-] [H|[st [Hst H]]]]].
        -- apply Hmarks in H. discriminate H.
        -- rewrite Hst. apply orb_true_iff.
           destruct H as [->|[H1 H2]]; [now left|]. right.
           apply andb_true_iff. split; [now apply Z.leb_le | now apply Z.ltb_lt].
  - split; [discriminate|]. intros [e [H _]]. discriminate H.
Qed.

End RetryExtra.

(* ================================================================== *)
(** * Properties of the loader and of the routes *)

Module RoutesFacts.
Import Retry Loader Routes JsFacts RetryExtra.

(** ** loadTitleStructure *)



(** ** parseInt *)





(** ** The routes *)

Section RouteFacts.
Variable readFile : list jsstring -> outcome Value jsstring.
Variable parse_metadata : jsstring -> outcome Value TitleMetadata.
Variable parse_structure : jsstring -> outcome Value WordCount.TitleStructure.
Variable loadTitlesSummary : outcome Error (list AgencyStats.Title).


Lemma in_range (n : Z) :
  out_of_range (Some n) = negb ((1 <=? n)%Z && (n <=? 50)%Z).
Proof.
  cbn [out_of_range].
  destruct (1 <=? n)%Z eqn:E1, (n <=? 50)%Z eqn:E2; cbn;
    rewrite ?orb_true_iff, ?orb_false_iff, ?Z.ltb_lt, ?Z.ltb_ge;
    rewrite ?Z.leb_le, ?Z.leb_gt in *; lia.
Qed.

Lemma names_title_checks (p : jsstring) (n : Z) :
  names_title p n ->
  truthy p = true /\ parseInt10 p = Some n /\ out_of_range (Some n) = false.
Proof.
  intros [Hp Hn]. split; [|split; [exact Hp|]].
  - destruct p; [discriminate Hp | reflexivity].
  - rewrite in_range.
    destruct (Z.leb_spec 1 n), (Z.leb_spec n 50); try lia; reflexivity.
Qed.


(** When the request names a title that loads, the body of the answer is
    the analysis of the loaded tree: every count of [analyzeWordCount] is
    passed on unchanged.  Only [titleName] may differ: it is the name the
    titles summary gives to that number, when the summary loads and has
    the number; a summary that fails to load is ignored. *)
Theorem word_count_route_body (p : jsstring) (n : Z)
    (structure : WordCount.TitleStructure) :
  names_title p n ->
  loadTitleStructure readFile parse_metadata parse_structure n
  = Returned structure ->
  let full := WordCount.analyzeWordCount structure in
  exists analysis,
    r_body (GET_word_count readFile parse_metadata parse_structure
                           loadTitlesSummary (Some p))
    = analysis_body analysis /\
    WordCount.r_title analysis = WordCount.r_title full /\
    WordCount.totalWords analysis = WordCount.totalWords full /\
    WordCount.totalCharacters analysis = WordCount.totalCharacters full /\
    WordCount.totalElements analysis = WordCount.totalElements full /\
    WordCount.byHierarchy analysis = WordCount.byHierarchy full /\
    WordCount.topElements analysis = WordCount.topElements full /\
    WordCount.sections analysis = WordCount.sections full /\
    WordCount.titleName analysis =
    match loadTitlesSummary with
    | Returned titles =>
        match find (fun t => Z.eqb (AgencyStats.number t) n) titles with
        | Some titleInfo => Some (AgencyStats.t_name titleInfo)
        | None => WordCount.titleName full
        end
    | Thrown _ => WordCount.titleName full
    end.
Proof.
  intros Hname Hload full.
  destruct (names_title_checks Hname) as (Hp & Hparse & Hrange).
  unfold GET_word_count. cbn [truthy_opt]. rewrite Hp, Hparse, Hrange.
  cbn [negb]. cbv beta iota zeta. rewrite Hload.
  destruct loadTitlesSummary as [titles|e].
  - destruct (find _ titles) as [titleInfo|];
      eexists; (split; [reflexivity|]); now repeat split.
  - eexists. split; [reflexivity|]. now repeat split.
Qed.

End RouteFacts.

(** A title whose files all read and parse: the body carries the counts of
    the analysis of the sample tree. *)
Lemma word_count_route_body_witness :
  exists analysis,
    r_body (GET_word_count any_file
              (metadata_naming (Some (lit "structure.json"))) sample_parse
              (Thrown (new_Error (lit "no summary"))) (Some (lit "17")))
    = analysis_body analysis /\
    WordCount.totalWords analysis = 10.
Proof.
  destruct (@word_count_route_body any_file
              (metadata_naming (Some (lit "structure.json"))) sample_parse
              (Thrown (new_Error (lit "no summary"))) (lit "17") 17%Z
              WordCount.sample_structure)
    as (analysis & Hbody & _ & Hwords & _).
  - split; [reflexivity | lia].
  - reflexivity.
  - exists analysis. split; [exact Hbody|]. rewrite Hwords. reflexivity.
Defined.


End RoutesFacts.
